(** * stackalloc: vectors on reserved address space

    A shallow embedding of [stackalloc.h] and [stackalloc.cpp]
    (namespace [sa]): the pool of reserved stacks with its two counters,
    the bump-pointer [basic_vector] and the containers built on it.

    Conventions of the embedding.
    - [size_t] values are integers in [0, 2^64); every [size_t] operation
      that can leave that range is written with [wrap].
    - A pointer is the integer address it holds.  Pointer arithmetic is
      exact: C++ gives no meaning to a pointer that leaves its object, so
      no wrap-around is modelled for it.  A pointer difference converted
      to [size_t] is wrapped, and so is the byte offset of an index.
    - Memory is a map from addresses to bytes; [memcpy] writes the object
      representation of a value byte by byte.
    - A [stack *] is the index of the slot in the static array [stacks].
    - The build modelled is the one with assertions enabled: a failed
      [assert] and [abort()] both end the process ([Fatal]). *)

From stdpp Require Import base numbers list.
From Stdlib Require Import ZArith Lia.
From Stdlib Require Import Strings.Byte.

Local Open Scope Z_scope.

(** ** Machine integers *)

Definition SIZE_WIDTH : Z := 64.

(** Reduction of an integer to a [size_t]. *)
Definition wrap (z : Z) : Z := z mod 2 ^ SIZE_WIDTH.

(** ** Bytes and object representations *)

Definition byte_of_Z (z : Z) : byte :=
  match Byte.of_N (Z.to_N (z mod 256)) with
  | Some b => b
  | None => Byte.x00
  end.

Definition Z_of_byte (b : byte) : Z := Z.of_N (Byte.to_N b).

(** Little-endian representation of an unsigned integer on [n] bytes. *)
Fixpoint le_encode (n : nat) (z : Z) : list byte :=
  match n with
  | O => []
  | S n' => byte_of_Z z :: le_encode n' (z / 256)
  end.

Fixpoint le_decode (bs : list byte) : Z :=
  match bs with
  | [] => 0
  | b :: bs' => Z_of_byte b + 256 * le_decode bs'
  end.

(** What the templates need from their parameter [T]: its size and its
    object representation (the bytes [memcpy] moves around), and which
    values of the Rocq type stand for a C++ value. *)
Class Elem (T : Type) := {
  sizeof : Z;
  to_bytes : T -> list byte;
  of_bytes : list byte -> T;
  representable : T -> Prop
}.
Arguments sizeof T {_}.

Class ElemLaws (T : Type) {E : Elem T} : Prop := {
  sizeof_pos : 0 < sizeof T;
  sizeof_fits : sizeof T < 2 ^ SIZE_WIDTH;
  to_bytes_length : forall t : T, Z.of_nat (length (to_bytes t)) = sizeof T;
  of_to_bytes : forall t : T, representable t -> of_bytes (to_bytes t) = t
}.

(** [int]: 32 bits, two's complement. *)
Definition int : Type := Z.

Definition int_of_bytes (bs : list byte) : int :=
  let u := le_decode bs in
  if u <? 2 ^ 31 then u else u - 2 ^ 32.

#[global] Instance int_elem : Elem int := {|
  sizeof := 4;
  to_bytes := fun z => le_encode 4 (z mod 2 ^ 32);
  of_bytes := int_of_bytes;
  representable := fun z => - 2 ^ 31 <= z < 2 ^ 31
|}.

(** [uint8_t]. *)
#[global] Instance uint8_elem : Elem byte := {|
  sizeof := 1;
  to_bytes := fun b => [b];
  of_bytes := fun bs => match bs with b :: _ => b | [] => Byte.x00 end;
  representable := fun _ => True
|}.

(** [T *]: a 64-bit address. *)
Definition ptr : Type := Z.

Definition ptr_elem : Elem ptr := {|
  sizeof := 8;
  to_bytes := fun a => le_encode 8 (wrap a);
  of_bytes := le_decode;
  representable := fun a => 0 <= a < 2 ^ SIZE_WIDTH
|}.

(** [struct MyObject { int a; }] of the test program. *)
Record MyObject : Type := { a : int }.

#[global] Instance MyObject_elem : Elem MyObject := {|
  sizeof := 4;
  to_bytes := fun o => le_encode 4 (a o mod 2 ^ 32);
  of_bytes := fun bs => {| a := int_of_bytes bs |};
  representable := fun o => - 2 ^ 31 <= a o < 2 ^ 31
|}.

(** ** The process state *)

(** [struct stack]. *)
Record stack : Type := {
  sp : Z;
  memory : Z;
  size : Z
}.

(** A default-constructed [stack]: two null pointers and size 0. *)
Definition stack_default : stack := {| sp := 0; memory := 0; size := 0 |}.

Definition heap : Type := Z -> byte.

(** The statics of [stackalloc.cpp], the memory, and the answers the
    operating system will give to the coming reservation requests
    (0 is [nullptr]: the request is refused). *)
Record state : Type := {
  locked : Z;
  allocated : Z;
  stacks : list stack;
  mem : heap;
  os : list Z
}.

Definition DEFAULT_LARGE_STACK : Z := 2 ^ 36.
Definition DEFAULT_MAX_STACKS : Z := 2 ^ 10.

Definition set_locked (n : Z) (s : state) : state :=
  {| locked := n; allocated := allocated s; stacks := stacks s;
     mem := mem s; os := os s |}.

Definition set_allocated (n : Z) (s : state) : state :=
  {| locked := locked s; allocated := n; stacks := stacks s;
     mem := mem s; os := os s |}.

Definition set_stacks (l : list stack) (s : state) : state :=
  {| locked := locked s; allocated := allocated s; stacks := l;
     mem := mem s; os := os s |}.

Definition set_mem (h : heap) (s : state) : state :=
  {| locked := locked s; allocated := allocated s; stacks := stacks s;
     mem := h; os := os s |}.

Definition set_os (l : list Z) (s : state) : state :=
  {| locked := locked s; allocated := allocated s; stacks := stacks s;
     mem := mem s; os := l |}.

(** The state at program start: zero-initialised counters, 1024
    default-constructed stacks. *)
Definition initial_state (h : heap) (answers : list Z) : state :=
  {| locked := 0; allocated := 0;
     stacks := replicate (Z.to_nat DEFAULT_MAX_STACKS) stack_default;
     mem := h; os := answers |}.

(** ** Computations *)

Inductive outcome (A : Type) : Type :=
| Ok (x : A)
| Fatal        (* failed assertion or abort(): the process ends here *)
| Undefined.   (* an element outside the array [stacks] is used *)
Arguments Ok {A} x.
Arguments Fatal {A}.
Arguments Undefined {A}.

(** A computation returns its outcome and the state it leaves, which for
    [Fatal] is the state at the moment the process ends. *)
Definition M (A : Type) : Type := state -> outcome A * state.

Definition ret {A} (x : A) : M A := fun s => (Ok x, s).

Definition bind {A B} (c : M A) (k : A -> M B) : M B :=
  fun s =>
    match c s with
    | (Ok x, s') => k x s'
    | (Fatal, s') => (Fatal, s')
    | (Undefined, s') => (Undefined, s')
    end.

Declare Scope comp_scope.
Delimit Scope comp_scope with comp.
Notation "x <- c ;; k" := (bind c (fun x => k))
  (at level 100, c at next level, right associativity) : comp_scope.
Notation "c ;;; k" := (bind c (fun _ => k))
  (at level 100, right associativity) : comp_scope.
Local Open Scope comp_scope.

Definition get : M state := fun s => (Ok s, s).
Definition modify (f : state -> state) : M unit := fun s => (Ok tt, f s).
Definition fatal {A} : M A := fun s => (Fatal, s).
Definition undefined {A} : M A := fun s => (Undefined, s).

(** [assert(b)]. *)
Definition assert (b : bool) : M unit := if b then ret tt else fatal.

(** ** Memory *)

Definition store_byte (a : Z) (b : byte) (h : heap) : heap :=
  fun a' => if a' =? a then b else h a'.

(** [memcpy(dst, src, n)] where [bs] are the [n] bytes found at [src]. *)
Fixpoint memcpy_heap (dst : Z) (bs : list byte) (h : heap) : heap :=
  match bs with
  | [] => h
  | b :: bs' => memcpy_heap (dst + 1) bs' (store_byte dst b h)
  end.

Definition memcpy (dst : Z) (bs : list byte) : M unit :=
  modify (fun s => set_mem (memcpy_heap dst bs (mem s)) s).

Fixpoint read_bytes (a : Z) (n : nat) (h : heap) : list byte :=
  match n with
  | O => []
  | S n' => h a :: read_bytes (a + 1) n' h
  end.

(** Reading the [T] a reference designates. *)
Definition load (T : Type) {E : Elem T} (a : Z) (s : state) : T :=
  of_bytes (read_bytes a (Z.to_nat (sizeof T)) (mem s)).

(** ** Address space and the array of stacks *)

(** [alloc_stack_address_space]: the operating system is asked for a
    reservation and answers an address or [nullptr]. *)
Definition alloc_stack_address_space (size : Z) : M Z :=
  fun s =>
    match os s with
    | [] => (Ok 0, s)
    | p :: rest => (Ok p, set_os rest s)
    end.

(** [stacks[i]] read and written; an index outside the array has no
    meaning in C++. *)
Definition stack_at (i : Z) : M stack :=
  fun s =>
    if (0 <=? i) && (i <? DEFAULT_MAX_STACKS) then
      match stacks s !! Z.to_nat i with
      | Some st => (Ok st, s)
      | None => (Undefined, s)
      end
    else (Undefined, s).

Definition set_stack (i : Z) (st : stack) : M unit :=
  fun s =>
    if (0 <=? i) && (i <? DEFAULT_MAX_STACKS) then
      (Ok tt, set_stacks (<[Z.to_nat i := st]> (stacks s)) s)
    else (Undefined, s).

(** [st->sp = p]. *)
Definition set_sp (i : Z) (p : Z) : M unit :=
  st <- stack_at i ;;
  set_stack i {| sp := p; memory := memory st; size := size st |}.

(** [stack::alloc] on [stacks[i]]. *)
Definition stack_alloc (i : Z) (_size : Z) : M bool :=
  p <- alloc_stack_address_space _size ;;
  set_stack i {| sp := p; memory := p; size := _size |} ;;;
  ret (negb (p =? 0)).

(** ** Automatic stack management *)

Definition acquire_stack : M Z :=
  s <- get ;;
  (if allocated s =? locked s then
     if allocated s =? DEFAULT_MAX_STACKS then fatal
     else
       modify (set_allocated (wrap (allocated s + 1))) ;;;
       ok <- stack_alloc (allocated s) DEFAULT_LARGE_STACK ;;
       if ok then ret tt else fatal
   else ret tt) ;;;
  s' <- get ;;
  stack_at (locked s') ;;;
  modify (set_locked (wrap (locked s' + 1))) ;;;
  ret (locked s').

Definition release_stack : M unit :=
  s <- get ;;
  modify (set_locked (wrap (locked s - 1))).

(** ** [basic_vector<T>] *)

(** The object: its two byte pointers.  [T] only fixes the element size
    and representation. *)
Record basic_vector (T : Type) : Type := {
  end_ : Z;
  begin : Z
}.
Arguments end_ {T} _.
Arguments begin {T} _.

Module BasicVector.
Section Ops.
Context {T : Type} {E : Elem T}.

(** [basic_vector(uint8_t *sp)]. *)
Definition ctor (p : Z) : basic_vector T := {| end_ := p; begin := p |}.

Definition set_end (p : Z) (v : basic_vector T) : basic_vector T :=
  {| end_ := p; begin := begin v |}.

Definition push_back (t : T) (v : basic_vector T) : M (basic_vector T) :=
  memcpy (end_ v) (to_bytes t) ;;;
  ret (set_end (end_ v + sizeof T) v).

Definition pop_back (v : basic_vector T) : M (basic_vector T) :=
  assert (begin v <? end_ v) ;;;
  ret (set_end (end_ v - sizeof T) v).

(** [operator[]]: the reference is the address of the element, [begin]
    plus the byte offset [i * sizeof(T)], a [size_t] product. *)
Definition index (i : Z) (v : basic_vector T) : M Z :=
  assert (wrap (i * sizeof T) <? wrap (end_ v - begin v)) ;;;
  ret (begin v + wrap (i * sizeof T)).

Definition back (v : basic_vector T) : M Z :=
  assert (begin v <? end_ v) ;;;
  ret (end_ v - sizeof T).

(** [pop]: the reference returned, and the object afterwards. *)
Definition pop (v : basic_vector T) : M (Z * basic_vector T) :=
  assert (begin v <? end_ v) ;;;
  let v' := set_end (end_ v - sizeof T) v in
  ret (end_ v', v').

(** [size]: the pointer difference is converted to [size_t] for the
    division. *)
Definition size (v : basic_vector T) : Z :=
  wrap (begin v - end_ v) / sizeof T.

(** [push_multiple(elems, size)], [elems] holding the values found at
    the source pointer. *)
Definition push_multiple (elems : list T) (n : Z) (v : basic_vector T)
  : M (basic_vector T) :=
  memcpy (end_ v)
    (take (Z.to_nat (wrap (n * sizeof T))) (concat (map to_bytes elems))) ;;;
  ret (set_end (end_ v + wrap (n * sizeof T)) v).
End Ops.
End BasicVector.

(** ** [vector<T>]: holds a stack for its lifetime *)

Module Vector.
Section Ops.
Context {T : Type} {E : Elem T}.

(** [vector() : basic_vector<T>(acquire_stack()->sp)]; the slot is
    returned beside the object for later reference. *)
Definition ctor : M (Z * basic_vector T) :=
  i <- acquire_stack ;;
  st <- stack_at i ;;
  ret (i, BasicVector.ctor (sp st)).

(** [~vector()]. *)
Definition dtor (v : basic_vector T) : M unit := release_stack.
End Ops.
End Vector.

(** ** [vector_max<T>]: fixed capacity, shares a stack *)

Record vector_max (T : Type) : Type := {
  vm_base : basic_vector T;
  vm_st : Z;
  vm_capacity : Z
}.
Arguments vm_base {T} _.
Arguments vm_st {T} _.
Arguments vm_capacity {T} _.

Module VectorMax.
Section Ops.
Context {T : Type} {E : Elem T}.

Definition ctor (max : Z) : M (vector_max T) :=
  i <- acquire_stack ;;
  st <- stack_at i ;;
  let capacity := sp st + wrap (max * sizeof T) in
  let base := BasicVector.ctor (T:=T) (sp st) in
  set_sp i (sp st + wrap (max * sizeof T)) ;;;
  release_stack ;;;
  ret {| vm_base := base; vm_st := i; vm_capacity := capacity |}.

Definition dtor (v : vector_max T) : M unit :=
  set_sp (vm_st v) (begin (vm_base v)).

Definition push_back (t : T) (v : vector_max T) : M (vector_max T) :=
  assert (end_ (vm_base v) <? vm_capacity v) ;;;
  memcpy (end_ (vm_base v)) (to_bytes t) ;;;
  ret {| vm_base := BasicVector.set_end (end_ (vm_base v) + sizeof T) (vm_base v);
         vm_st := vm_st v; vm_capacity := vm_capacity v |}.
End Ops.
End VectorMax.

(** [vector_fixed<T>] is not embedded: its constructor hands a [stack *]
    to the [basic_vector] constructor, which takes a [uint8_t *], and its
    destructor calls the data member [begin]; the template cannot be
    instantiated, and the source gives it no behaviour. *)

(** ** [vector_pool<T>]: elements with a free list *)

Record vector_pool (T : Type) : Type := {
  vp_base : basic_vector T;
  free_list : basic_vector ptr
}.
Arguments vp_base {T} _.
Arguments free_list {T} _.

Module VectorPool.
Section Ops.
Context {T : Type} {E : Elem T}.

(** The base [vector<T>] is constructed first, then the member
    [free_list]. *)
Definition ctor : M (vector_pool T) :=
  b <- Vector.ctor (T:=T) ;;
  f <- Vector.ctor (T:=ptr) ;;
  ret {| vp_base := b.2; free_list := f.2 |}.

(** Members are destroyed before bases. *)
Definition dtor (v : vector_pool T) : M unit :=
  release_stack ;;; release_stack.

Definition alloc (t : T) (v : vector_pool T) : M (Z * vector_pool T) :=
  if negb (BasicVector.size (E:=ptr_elem) (free_list v) =? 0) then
    r <- BasicVector.pop (E:=ptr_elem) (free_list v) ;;
    s <- get ;;
    let tn := load ptr (E:=ptr_elem) r.1 s in
    memcpy tn (to_bytes t) ;;;
    ret (tn, {| vp_base := vp_base v; free_list := r.2 |})
  else
    b <- BasicVector.push_back t (vp_base v) ;;
    r <- BasicVector.back b ;;
    ret (r, {| vp_base := b; free_list := free_list v |}).

Definition reuseable (t : Z) (v : vector_pool T) : M (vector_pool T) :=
  assert ((begin (vp_base v) <=? t) && (t <? end_ (vp_base v))) ;;;
  f <- BasicVector.push_back (E:=ptr_elem) t (free_list v) ;;
  ret {| vp_base := vp_base v; free_list := f |}.
End Ops.
End VectorPool.

(** ** Call sequences and the properties stated about them *)

(** Calls on a [basic_vector]. *)
Inductive vector_call (T : Type) : Type :=
| PushBack (t : T)
| PopBack.
Arguments PushBack {T} t.
Arguments PopBack {T}.

Section Sequences.
Context {T : Type} {E : Elem T}.

Definition run_call (c : vector_call T) (v : basic_vector T) : M (basic_vector T) :=
  match c with
  | PushBack t => BasicVector.push_back t v
  | PopBack => BasicVector.pop_back v
  end.

Fixpoint run_calls (cs : list (vector_call T)) (v : basic_vector T)
  : M (basic_vector T) :=
  match cs with
  | [] => ret v
  | c :: cs' => v' <- run_call c v ;; run_calls cs' v'
  end.

Fixpoint push_all (ts : list T) (v : basic_vector T) : M (basic_vector T) :=
  match ts with
  | [] => ret v
  | t :: ts' => v' <- BasicVector.push_back t v ;; push_all ts' v'
  end.

(** Pushes minus pops of a call sequence. *)
Fixpoint net_pushes (cs : list (vector_call T)) : Z :=
  match cs with
  | [] => 0
  | PushBack _ :: cs' => 1 + net_pushes cs'
  | PopBack :: cs' => net_pushes cs' - 1
  end.

(** No prefix pops more than [depth] elements beyond what it pushed. *)
Fixpoint pops_covered (depth : nat) (cs : list (vector_call T)) : bool :=
  match cs with
  | [] => true
  | PushBack _ :: cs' => pops_covered (S depth) cs'
  | PopBack :: cs' =>
      match depth with
      | O => false
      | S d => pops_covered d cs'
      end
  end.

(** The contents a call sequence leaves, as a list. *)
Fixpoint model_calls (cs : list (vector_call T)) (xs : list T) : list T :=
  match cs with
  | [] => xs
  | PushBack t :: cs' => model_calls cs' (xs ++ [t])
  | PopBack :: cs' => model_calls cs' (take (length xs - 1) xs)
  end.

Definition call_representable (c : vector_call T) : Prop :=
  match c with
  | PushBack t => representable t
  | PopBack => True
  end.

(** The number of elements between [begin] and [end], as the assertion
    of [operator[]] measures the span. *)
Definition span_count (v : basic_vector T) : Z :=
  wrap (end_ v - begin v) / sizeof T.

(** [v] holds exactly the values [xs], in order, in the memory of [s]. *)
Definition represents (s : state) (v : basic_vector T) (xs : list T) : Prop :=
  end_ v = begin v + Z.of_nat (length xs) * sizeof T /\
  forall (i : nat) (x : T),
    xs !! i = Some x -> load T (begin v + Z.of_nat i * sizeof T) s = x.

(** A [vector<T>] from construction to destruction, [ts] pushed in
    between; the slot it held and the object as it was destroyed. *)
Definition lifecycle (ts : list T) : M (Z * basic_vector T) :=
  r <- Vector.ctor (T:=T) ;;
  v <- push_all ts r.2 ;;
  Vector.dtor v ;;;
  ret (r.1, v).
End Sequences.

(** [alloc(a)], [alloc(b)], [reuseable] on the first reference, [alloc(c)]
    on a [vector_pool]: the three references returned and the object at
    the end. *)
Definition alloc_alloc_reuse_alloc {T : Type} {E : Elem T} (a b c : T)
    (v : vector_pool T) : M (Z * Z * Z * vector_pool T) :=
  r1 <- VectorPool.alloc a v ;;
  r2 <- VectorPool.alloc b r1.2 ;;
  v3 <- VectorPool.reuseable r1.1 r2.2 ;;
  r4 <- VectorPool.alloc c v3 ;;
  ret (r1.1, r2.1, r4.1, r4.2).

(** Calls on the pool. *)
Inductive pool_call : Type := Acquire | Release.

Definition run_pool_call (c : pool_call) : M unit :=
  match c with
  | Acquire => acquire_stack ;;; ret tt
  | Release => release_stack
  end.

(** The states after each call of a sequence; the last one is the state
    in which the process ended, if it did. *)
Fixpoint trace (cs : list pool_call) (s : state) : list state :=
  match cs with
  | [] => []
  | c :: cs' =>
      match run_pool_call c s with
      | (Ok _, s') => s' :: trace cs' s'
      | (_, s') => [s']
      end
  end.

(** Every release of the sequence has an acquire before it that no
    earlier release has taken, [depth] stacks being held at the start. *)
Fixpoint releases_matched (depth : nat) (cs : list pool_call) : bool :=
  match cs with
  | [] => true
  | Acquire :: cs' => releases_matched (S depth) cs'
  | Release :: cs' =>
      match depth with
      | O => false
      | S d => releases_matched d cs'
      end
  end.

Fixpoint acquire_n (n : nat) : M (list Z) :=
  match n with
  | O => ret []
  | S n' => i <- acquire_stack ;; l <- acquire_n n' ;; ret (i :: l)
  end.

Fixpoint release_n (n : nat) : M unit :=
  match n with
  | O => ret tt
  | S n' => release_stack ;;; release_n n'
  end.

(** The invariant of the two counters. *)
Definition pool_inv (s : state) : Prop :=
  0 <= locked s /\ locked s <= allocated s /\ allocated s <= DEFAULT_MAX_STACKS.

(** The array [stacks] has its declared length. *)
Definition stacks_wf (s : state) : Prop :=
  length (stacks s) = Z.to_nat DEFAULT_MAX_STACKS.

(** What the program can do to the state through the library: acquire a
    stack, release one it holds, move the frontier of a materialised
    stack, write memory. *)
Inductive step : state -> state -> Prop :=
| step_acquire s i s' :
    acquire_stack s = (Ok i, s') -> step s s'
| step_release s s' :
    0 < locked s -> release_stack s = (Ok tt, s') -> step s s'
| step_set_sp s i p s' :
    0 <= i < allocated s -> set_sp i p s = (Ok tt, s') -> step s s'
| step_memcpy s dst bs s' :
    memcpy dst bs s = (Ok tt, s') -> step s s'.

Inductive reachable : state -> Prop :=
| reachable_initial h answers : reachable (initial_state h answers)
| reachable_step s s' : reachable s -> step s s' -> reachable s'.

(** The byte range a [vector_max] carved: from its [begin] up to its
    [capacity]. *)
Definition carved {T} (v : vector_max T) (x : Z) : Prop :=
  begin (vm_base v) <= x < vm_capacity v.

(** The frontier of stack [i] lies at or beyond the end of [v]. *)
Definition frontier_past {T} (s : state) (i : Z) (v : basic_vector T) : Prop :=
  exists st, stacks s !! Z.to_nat i = Some st /\ end_ v <= sp st.

(** ** Sample states *)

Definition zero_heap : heap := fun _ => Byte.x00.

(** A process whose reservations will succeed at 0x10000000000,
    0x20000000000, ... *)
Definition boot (n : nat) : state :=
  initial_state zero_heap (map (fun k => Z.of_nat (S k) * 2 ^ 40) (seq 0 n)).

(** The state after [n] acquisitions from [boot n]. *)
Definition holding (n : nat) : state := (acquire_n n (boot n)).2.

(** A [basic_vector<int>] at address 4096 after [push_back(10)] and
    [push_back(-20)], and the state these calls leave. *)
Definition two_ints_vector : basic_vector int := {| end_ := 4104; begin := 4096 |}.

Definition two_ints : state :=
  (push_all (T:=int) [10; -20] (BasicVector.ctor 4096) (boot 0)).2.

(** The [vector_pool<MyObject>] of the test program right after its
    construction at program start. *)
Definition fresh_pool : vector_pool MyObject :=
  {| vp_base := BasicVector.ctor (2 ^ 40); free_list := BasicVector.ctor (2 ^ 41) |}.

Definition fresh_pool_state : state := (VectorPool.ctor (T:=MyObject) (boot 2)).2.

(** ** Committing pages on first touch ([_WIN32]) *)

Definition COMMIT_PAGES_AT_ONCE : Z := 256.
Definition USE_GUARD_PAGES : bool := false.

Inductive disposition : Type :=
| EXCEPTION_CONTINUE_SEARCH
| EXCEPTION_CONTINUE_EXECUTION.

(** [page_size * COMMIT_PAGES_AT_ONCE]. *)
Definition page_increment (page_size : Z) : Z :=
  wrap (page_size * COMMIT_PAGES_AT_ONCE).

(** [commit_and_guard(vp)]; [virtual_alloc a n] is the answer of the
    operating system to the request to commit [n] bytes at [a]. *)
Definition commit_and_guard (page_size : Z) (virtual_alloc : Z -> Z -> bool)
    (vp : Z) : bool :=
  virtual_alloc vp (page_increment page_size) &&
  (negb USE_GUARD_PAGES ||
   virtual_alloc (vp + page_increment page_size) page_size).

(** [(size_t)hit_address & ~(page_size - 1)], one page further with guard
    pages. *)
Definition page_start (page_size hit_address : Z) : Z :=
  let p := Z.land (wrap hit_address) (wrap (Z.lnot (wrap (page_size - 1)))) in
  if USE_GUARD_PAGES then p + page_size else p.

(** [guard_page_exception_filter], given the exception code and the
    address of the access; the two status codes come from the system
    headers. *)
Definition guard_page_exception_filter
    (STATUS_GUARD_PAGE_VIOLATION STATUS_ACCESS_VIOLATION : Z)
    (page_size : Z) (virtual_alloc : Z -> Z -> bool)
    (exception_code hit_address : Z) : disposition :=
  if negb (exception_code =?
           (if USE_GUARD_PAGES then STATUS_GUARD_PAGE_VIOLATION
            else STATUS_ACCESS_VIOLATION))
  then EXCEPTION_CONTINUE_SEARCH
  else if commit_and_guard page_size virtual_alloc
            (page_start page_size hit_address)
       then EXCEPTION_CONTINUE_EXECUTION
       else EXCEPTION_CONTINUE_SEARCH.

(** ** The loops of the test program *)

(** Conversion of an integer to [int]: the 32 low bits, two's
    complement.  The [int] additions of the program are followed by it,
    as in the compiled program. *)
Definition int_cast (z : Z) : int :=
  let u := z mod 2 ^ 32 in
  if u <? 2 ^ 31 then u else u - 2 ^ 32.

(** [for (int i = ...; i < num_elems; i++) v.push_back(i);] with [n]
    rounds to go. *)
Fixpoint push_loop (n : nat) (i : int) (v : basic_vector int) : M (basic_vector int) :=
  match n with
  | O => ret v
  | S n' => v' <- BasicVector.push_back i v ;; push_loop n' (int_cast (i + 1)) v'
  end.

(** [for (...) sum += v[i];]: [i] is converted to [size_t] for
    [operator[]], [sum] is an [int]. *)
Fixpoint access_loop (n : nat) (i : int) (v : basic_vector int) (sum : int) : M int :=
  match n with
  | O => ret sum
  | S n' =>
      r <- BasicVector.index (wrap i) v ;;
      s <- get ;;
      access_loop n' (int_cast (i + 1)) v (int_cast (sum + load int r s))
  end.

(** [for (...) v.pop_back();]. *)
Fixpoint pop_loop (n : nat) (v : basic_vector int) : M (basic_vector int) :=
  match n with
  | O => ret v
  | S n' => v' <- BasicVector.pop_back v ;; pop_loop n' v'
  end.

(** The lambda [push_access_pop] of [main] on a [vector<int>], for the
    values of [int num_elems] and [int sum] at the call: the new value of
    [sum] and the vector it leaves. *)
Definition push_access_pop (num_elems : int) (sum : int) (v : basic_vector int)
    : M (int * basic_vector int) :=
  v1 <- push_loop (Z.to_nat num_elems) 0 v ;;
  sum1 <- access_loop (Z.to_nat num_elems) 0 v1 sum ;;
  v2 <- pop_loop (Z.to_nat num_elems) v1 ;;
  ret (int_cast (sum1 + int_cast (BasicVector.size v2)), v2).

(** [n] vectors, each constructed, filled with [ts] and destroyed before
    the next: the slots and objects in order. *)
Fixpoint lifecycles {T : Type} {E : Elem T} (n : nat) (ts : list T)
    : M (list (Z * basic_vector T)) :=
  match n with
  | O => ret []
  | S n' => r <- lifecycle ts ;; l <- lifecycles n' ts ;; ret (r :: l)
  end.

(** The pool part of two states is the same. *)
Definition same_pool (s s' : state) : Prop :=
  locked s' = locked s /\ allocated s' = allocated s /\
  stacks s' = stacks s /\ os s' = os s.

(** [push_back] of each value of [ts] in turn on a [vector_max]. *)
Fixpoint vm_push_all {T : Type} {E : Elem T} (ts : list T) (v : vector_max T)
    : M (vector_max T) :=
  match ts with
  | [] => ret v
  | t :: ts' => v' <- VectorMax.push_back t v ;; vm_push_all ts' v'
  end.

(** The pool of the test program after its three first [alloc] calls,
    and after [reuseable] on the second object. *)
Definition pool3 : vector_pool MyObject :=
  {| vp_base := {| end_ := 2 ^ 40 + 12; begin := 2 ^ 40 |};
     free_list := BasicVector.ctor (2 ^ 41) |}.

Definition pool3_state : state :=
  ((r1 <- VectorPool.alloc {| a := 1 |} fresh_pool ;;
    r2 <- VectorPool.alloc {| a := 2 |} r1.2 ;;
    VectorPool.alloc {| a := 3 |} r2.2) fresh_pool_state).2.

Definition pool3_freed : vector_pool MyObject :=
  {| vp_base := {| end_ := 2 ^ 40 + 12; begin := 2 ^ 40 |};
     free_list := {| end_ := 2 ^ 41 + 8; begin := 2 ^ 41 |} |}.

Definition pool3_freed_state : state :=
  (VectorPool.reuseable (2 ^ 40 + 4) pool3 pool3_state).2.

(** * Properties *)

(** ** Machine integers and bytes *)

Lemma wrap_small z : 0 <= z < 2 ^ SIZE_WIDTH -> wrap z = z.
Proof. intros Hz. unfold wrap. apply Z.mod_small. exact Hz. Qed.

Lemma wrap_range z : 0 <= wrap z < 2 ^ SIZE_WIDTH.
Proof. unfold wrap. apply Z.mod_pos_bound. reflexivity. Qed.

Lemma Z_of_byte_of_Z z : Z_of_byte (byte_of_Z z) = z mod 256.
Proof.
  unfold Z_of_byte, byte_of_Z.
  assert (Hm : 0 <= z mod 256 < 256) by (apply Z.mod_pos_bound; lia).
  destruct (Byte.of_N (Z.to_N (z mod 256))) as [b|] eqn:Hb.
  - apply Byte.to_of_N in Hb. rewrite Hb. lia.
  - apply Byte.of_N_None_iff in Hb. lia.
Qed.

Lemma le_encode_length n z : length (le_encode n z) = n.
Proof. revert z. induction n as [|n IH]; intros z; simpl; [|rewrite IH]; reflexivity. Qed.

Lemma le_decode_encode n z :
  0 <= z < 256 ^ Z.of_nat n -> le_decode (le_encode n z) = z.
Proof.
  revert z. induction n as [|n IH]; intros z Hz.
  - simpl in *. lia.
  - cbn [le_encode le_decode]. rewrite Z_of_byte_of_Z.
    rewrite Nat2Z.inj_succ, Z.pow_succ_r in Hz by lia.
    rewrite IH.
    + pose proof (Z.div_mod z 256). lia.
    + split; [apply Z.div_pos; lia | apply Z.div_lt_upper_bound; lia].
Qed.

Lemma int_of_to_bytes (z : Z) :
  - 2 ^ 31 <= z < 2 ^ 31 -> int_of_bytes (le_encode 4 (z mod 2 ^ 32)) = z.
Proof.
  intros Hz. unfold int_of_bytes.
  rewrite le_decode_encode by (apply Z.mod_pos_bound; reflexivity).
  destruct (Z.ltb_spec (z mod 2 ^ 32) (2 ^ 31)) as [Hlt|Hge].
  - destruct (Z.lt_ge_cases z 0) as [Hneg|Hpos].
    + replace (z mod 2 ^ 32) with (z + 2 ^ 32) in Hlt; [lia|].
      apply Z.mod_unique with (q := -1); lia.
    + apply Z.mod_small. lia.
  - destruct (Z.lt_ge_cases z 0) as [Hneg|Hpos].
    + replace (z mod 2 ^ 32) with (z + 2 ^ 32); [lia|].
      apply Z.mod_unique with (q := -1); lia.
    + rewrite Z.mod_small in Hge by lia. lia.
Qed.

#[global] Instance int_laws : ElemLaws int.
Proof.
  split.
  - reflexivity.
  - reflexivity.
  - intros t. reflexivity.
  - intros t Ht. apply int_of_to_bytes. exact Ht.
Qed.

#[global] Instance uint8_laws : ElemLaws byte.
Proof. split; try reflexivity. Qed.

Lemma ptr_laws : ElemLaws ptr (E := ptr_elem).
Proof.
  split.
  - reflexivity.
  - reflexivity.
  - intros t. reflexivity.
  - intros t Ht. cbn [of_bytes to_bytes ptr_elem].
    rewrite wrap_small by exact Ht.
    apply le_decode_encode. exact Ht.
Qed.

#[global] Instance MyObject_laws : ElemLaws MyObject.
Proof.
  split.
  - reflexivity.
  - reflexivity.
  - intros t. reflexivity.
  - intros [z] Hz. cbn in *. f_equal. apply int_of_to_bytes. exact Hz.
Qed.

(** ** Memory *)

Lemma memcpy_heap_outside bs : forall d h x,
  x < d \/ d + Z.of_nat (length bs) <= x -> memcpy_heap d bs h x = h x.
Proof.
  induction bs as [|b bs IH]; intros d h x Hx; [reflexivity|].
  cbn [memcpy_heap length] in *. rewrite IH by lia.
  unfold store_byte. destruct (Z.eqb_spec x d); [lia | reflexivity].
Qed.

Lemma memcpy_heap_inside bs : forall d h (i : nat) b,
  bs !! i = Some b -> memcpy_heap d bs h (d + Z.of_nat i) = b.
Proof.
  induction bs as [|b0 bs IH]; intros d h i b Hi; [discriminate|].
  destruct i as [|i]; cbn [memcpy_heap].
  - injection Hi as <-. rewrite memcpy_heap_outside by lia.
    unfold store_byte. rewrite Z.add_0_r, Z.eqb_refl. reflexivity.
  - replace (d + Z.of_nat (S i)) with (d + 1 + Z.of_nat i) by lia.
    apply IH. exact Hi.
Qed.

Lemma read_bytes_ext n : forall a h h',
  (forall x, a <= x < a + Z.of_nat n -> h x = h' x) ->
  read_bytes a n h = read_bytes a n h'.
Proof.
  induction n as [|n IH]; intros a h h' Hx; [reflexivity|].
  cbn [read_bytes]. f_equal.
  - apply Hx. lia.
  - apply IH. intros x Hr. apply Hx. lia.
Qed.

Lemma read_bytes_memcpy bs : forall d h,
  read_bytes d (length bs) (memcpy_heap d bs h) = bs.
Proof.
  induction bs as [|b bs IH]; intros d h; [reflexivity|].
  cbn [length read_bytes memcpy_heap]. f_equal.
  - rewrite memcpy_heap_outside by lia.
    unfold store_byte. rewrite Z.eqb_refl. reflexivity.
  - apply IH.
Qed.

Section LoadStore.
Context {T : Type} {E : Elem T} {L : ElemLaws T}.

Lemma to_bytes_nat_length (t : T) : length (to_bytes t) = Z.to_nat (sizeof T).
Proof. rewrite <- (to_bytes_length t). rewrite Nat2Z.id. reflexivity. Qed.

(** A value written by [memcpy] is the one read back. *)
Lemma load_memcpy_same (t : T) (d : Z) (s : state) :
  representable t ->
  load T d (set_mem (memcpy_heap d (to_bytes t) (mem s)) s) = t.
Proof.
  intros Ht. unfold load. cbn [mem set_mem].
  rewrite <- (to_bytes_nat_length t), read_bytes_memcpy.
  apply of_to_bytes. exact Ht.
Qed.

(** A [memcpy] that does not touch the bytes of an element leaves it. *)
Lemma load_memcpy_other (d : Z) (bs : list byte) (x : Z) (s : state) :
  x + sizeof T <= d \/ d + Z.of_nat (length bs) <= x ->
  load T x (set_mem (memcpy_heap d bs (mem s)) s) = load T x s.
Proof.
  intros Hd. unfold load. cbn [mem set_mem]. f_equal.
  apply read_bytes_ext. intros y Hy.
  pose proof sizeof_pos as Hp.
  rewrite Z2Nat.id in Hy by lia.
  apply memcpy_heap_outside. lia.
Qed.
End LoadStore.

(** ** The pool of stacks *)

Ltac unfold_comp :=
  unfold acquire_stack, release_stack, stack_alloc, alloc_stack_address_space,
    set_sp, set_stack, stack_at, memcpy, assert in *;
  unfold bind, get, modify, fatal, undefined, ret in *.

Ltac split_cases := repeat (case_match; simplify_eq/=).

Ltac unfold_size := unfold wrap, SIZE_WIDTH, DEFAULT_MAX_STACKS in *.

Lemma stacks_wf_lookup s i :
  stacks_wf s -> 0 <= i < DEFAULT_MAX_STACKS ->
  exists st, stacks s !! Z.to_nat i = Some st.
Proof.
  intros Hwf Hi. apply lookup_lt_is_Some_2. rewrite Hwf.
  apply Z2Nat.inj_lt; lia.
Qed.

(** What a returning [acquire_stack] has done. *)
Lemma acquire_stack_ok s i s' :
  pool_inv s -> acquire_stack s = (Ok i, s') ->
  i = locked s /\ 0 <= i < DEFAULT_MAX_STACKS /\
  locked s' = locked s + 1 /\ locked s' <= allocated s' /\
  allocated s' <= DEFAULT_MAX_STACKS /\ allocated s <= allocated s' /\
  mem s' = mem s /\ length (stacks s') = length (stacks s) /\
  (allocated s <> locked s -> s' = set_locked (locked s + 1) s).
Proof.
  intros (H0 & H1 & H2) H.
  unfold_comp. unfold_size. split_cases.
  all: rewrite ?length_insert.
  all: rewrite ?Z.mod_small by lia.
  all: repeat split; try lia.
Qed.

(** With a materialised stack free, [acquire_stack] hands out slot
    [locked] and asks nothing of the operating system. *)
Lemma acquire_stack_unlocked s :
  stacks_wf s -> 0 <= locked s -> locked s < allocated s ->
  allocated s <= DEFAULT_MAX_STACKS ->
  acquire_stack s = (Ok (locked s), set_locked (locked s + 1) s).
Proof.
  intros Hwf H0 H1 H2.
  destruct (stacks_wf_lookup s (locked s) Hwf) as [st Hst]; [lia|].
  unfold_comp.
  destruct (Z.eqb_spec (allocated s) (locked s)) as [Heq|_]; [lia|].
  cbn. rewrite Hst.
  replace ((0 <=? locked s) && (locked s <? DEFAULT_MAX_STACKS)) with true
    by (symmetry; apply andb_true_iff; split; [apply Z.leb_le|apply Z.ltb_lt]; lia).
  rewrite wrap_small by (unfold_size; lia). reflexivity.
Qed.

(** [acquire_stack] keeps the invariant however it ends. *)
Lemma acquire_stack_inv s : pool_inv s -> pool_inv (acquire_stack s).2.
Proof.
  intros (H0 & H1 & H2). unfold pool_inv.
  unfold_comp. unfold_size. split_cases.
  all: rewrite ?Z.mod_small by lia.
  all: lia.
Qed.

Lemma acquire_stack_wf s : stacks_wf s -> stacks_wf (acquire_stack s).2.
Proof.
  unfold stacks_wf. intros Hwf.
  unfold_comp. split_cases.
  all: rewrite ?length_insert; assumption.
Qed.

Lemma release_stack_ok s :
  0 < locked s <= 2 ^ SIZE_WIDTH ->
  release_stack s = (Ok tt, set_locked (locked s - 1) s).
Proof.
  intros Hl. unfold_comp. rewrite wrap_small by lia. reflexivity.
Qed.

Lemma step_inv s s' :
  step s s' -> pool_inv s /\ stacks_wf s -> pool_inv s' /\ stacks_wf s'.
Proof.
  intros Hstep [Hinv Hwf]. destruct Hstep as [s i s' H|s s' Hl H|s i p s' Hi H|s d bs s' H].
  - pose proof (acquire_stack_inv s Hinv) as Hi.
    pose proof (acquire_stack_wf s Hwf) as Hw.
    rewrite H in Hi, Hw. split; assumption.
  - destruct Hinv as (H0 & H1 & H2).
    rewrite release_stack_ok in H by (unfold_size; lia).
    injection H as <-. split; [|exact Hwf].
    unfold pool_inv. cbn. lia.
  - unfold stacks_wf, pool_inv in *. unfold_comp. split_cases.
    rewrite length_insert. split; assumption.
  - unfold_comp. simplify_eq/=. split; assumption.
Qed.

Lemma reachable_inv s : reachable s -> pool_inv s /\ stacks_wf s.
Proof.
  induction 1 as [h answers|s s' _ IH Hstep].
  - split.
    + unfold pool_inv, initial_state, DEFAULT_MAX_STACKS. cbn. lia.
    + unfold stacks_wf, initial_state. cbn [stacks]. apply length_replicate.
  - eapply step_inv; eassumption.
Qed.

Lemma acquire_n_ok n : forall s slots s1,
  pool_inv s -> stacks_wf s -> acquire_n n s = (Ok slots, s1) ->
  slots = seqZ (locked s) (Z.of_nat n) /\
  locked s1 = locked s + Z.of_nat n /\
  allocated s <= allocated s1 /\ pool_inv s1 /\ stacks_wf s1.
Proof.
  induction n as [|n IH]; intros s slots s1 Hinv Hwf H.
  - cbn in H. unfold ret in H. simplify_eq. repeat split; try lia; apply Hinv || exact Hwf.
  - cbn [acquire_n] in H. unfold bind at 1 in H.
    destruct (acquire_stack s) as [[i| |] sa] eqn:Ha; try discriminate.
    unfold bind at 1 in H.
    destruct (acquire_n n sa) as [[l| |] sb] eqn:Hb; try discriminate.
    unfold ret in H. simplify_eq.
    pose proof (acquire_stack_inv s Hinv) as Hinv'.
    pose proof (acquire_stack_wf s Hwf) as Hwf'.
    rewrite Ha in Hinv', Hwf'. cbn in Hinv', Hwf'.
    destruct (acquire_stack_ok s i sa Hinv Ha) as (-> & Hi & Hl & _ & _ & Hal & _).
    destruct (IH sa l s1 Hinv' Hwf' Hb) as (-> & Hl1 & Hal1 & Hinv1 & Hwf1).
    repeat split; try lia; try apply Hinv1; try exact Hwf1.
    rewrite (seqZ_cons (locked s)) by lia. rewrite Hl. f_equal. f_equal; lia.
Qed.

Lemma release_n_ok n : forall s,
  Z.of_nat n <= locked s <= 2 ^ SIZE_WIDTH ->
  release_n n s = (Ok tt, set_locked (locked s - Z.of_nat n) s).
Proof.
  induction n as [|n IH]; intros s Hl.
  - cbn. unfold ret. destruct s; cbn. unfold set_locked. cbn. do 2 f_equal. lia.
  - cbn [release_n]. unfold bind. rewrite release_stack_ok by lia.
    rewrite IH by (cbn; lia). cbn. unfold set_locked. cbn. do 2 f_equal. lia.
Qed.

(** Acquisitions served by stacks that are already materialised. *)
Lemma acquire_n_replay n : forall s,
  stacks_wf s -> 0 <= locked s -> locked s + Z.of_nat n <= allocated s ->
  allocated s <= DEFAULT_MAX_STACKS ->
  acquire_n n s = (Ok (seqZ (locked s) (Z.of_nat n)),
                   set_locked (locked s + Z.of_nat n) s).
Proof.
  induction n as [|n IH]; intros s Hwf H0 H1 H2.
  - cbn. unfold ret. destruct s; cbn. unfold set_locked. cbn. do 2 f_equal. lia.
  - cbn [acquire_n]. unfold bind at 1.
    rewrite acquire_stack_unlocked by (assumption || lia).
    unfold bind at 1. rewrite IH by (assumption || cbn; lia).
    unfold ret. cbn. rewrite (seqZ_cons (locked s)) by lia.
    unfold set_locked. cbn.
    replace (Z.succ (locked s)) with (locked s + 1) by lia.
    replace (Z.pred (Z.of_nat (S n))) with (Z.of_nat n) by lia.
    replace (locked s + Z.of_nat (S n)) with (locked s + 1 + Z.of_nat n) by lia.
    reflexivity.
Qed.

(** C3: from a reachable state, [n] calls of [acquire_stack] followed by
    [n] calls of [release_stack] bring [locked] back to the value it had,
    and [n] further calls of [acquire_stack] return the same slots in the
    same order, whatever the operating system would answer. *)
Theorem acquire_release_balanced (n : nat) (s s1 : state) (slots : list Z) :
  reachable s ->
  acquire_n n s = (Ok slots, s1) ->
  exists s2,
    release_n n s1 = (Ok tt, s2) /\
    locked s2 = locked s /\
    forall answers, (acquire_n n (set_os answers s2)).1 = Ok slots.
Proof.
  intros Hr Ha.
  destruct (reachable_inv s Hr) as [Hinv Hwf].
  destruct (acquire_n_ok n s slots s1 Hinv Hwf Ha)
    as (-> & Hl & Hal & (H0 & H1 & H2) & Hwf1).
  destruct Hinv as (Hs0 & _).
  exists (set_locked (locked s1 - Z.of_nat n) s1). split; [|split].
  - apply release_n_ok. unfold_size. lia.
  - cbn. lia.
  - intros answers.
    rewrite acquire_n_replay.
    + cbn. f_equal. f_equal. lia.
    + exact Hwf1.
    + cbn. lia.
    + cbn. lia.
    + cbn. exact H2.
Qed.

Lemma acquire_release_balanced_witness :
  exists s2,
    release_n 3 (holding 3) = (Ok tt, s2) /\
    locked s2 = locked (boot 3) /\
    forall answers, (acquire_n 3 (set_os answers s2)).1 = Ok [0; 1; 2].
Proof.
  apply (acquire_release_balanced 3 (boot 3) (holding 3) [0; 1; 2]).
  - apply reachable_initial.
  - vm_compute. reflexivity.
Defined.

(** C8: with all [DEFAULT_MAX_STACKS] stacks materialised and locked,
    [acquire_stack] ends the process: it returns no stack and the
    counters, the array of stacks, the memory and the pending answers of
    the operating system are as they were. *)
Theorem acquire_stack_exhausted (s : state) :
  allocated s = DEFAULT_MAX_STACKS ->
  locked s = allocated s ->
  acquire_stack s = (Fatal, s).
Proof.
  intros Ha Hl. unfold_comp.
  rewrite Hl, Z.eqb_refl. rewrite <- Hl, Hl, Ha, Z.eqb_refl. reflexivity.
Qed.

Lemma acquire_stack_exhausted_witness :
  acquire_stack (holding 1024) = (Fatal, holding 1024).
Proof.
  apply acquire_stack_exhausted; vm_compute; reflexivity.
Defined.

Lemma trace_inv cs : forall (d : nat) (s : state),
  pool_inv s -> locked s = Z.of_nat d -> releases_matched d cs = true ->
  Forall pool_inv (trace cs s).
Proof.
  induction cs as [|c cs IH]; intros d s Hinv Hd Hm; [constructor|].
  destruct c; cbn [trace run_pool_call releases_matched] in *.
  - unfold bind at 1.
    pose proof (acquire_stack_inv s Hinv) as Hinv'.
    destruct (acquire_stack s) as [[i| |] s'] eqn:Ha; cbn in Hinv'.
    + unfold ret. constructor; [exact Hinv'|].
      apply (IH (S d)); [exact Hinv'| |exact Hm].
      destruct (acquire_stack_ok s i s' Hinv Ha) as (_ & _ & Hl & _). lia.
    + constructor; [exact Hinv'|constructor].
    + constructor; [exact Hinv'|constructor].
  - destruct d as [|d]; [discriminate|].
    destruct Hinv as (H0 & H1 & H2).
    rewrite release_stack_ok by (unfold_size; lia).
    assert (Hinv' : pool_inv (set_locked (locked s - 1) s))
      by (unfold pool_inv; cbn; lia).
    constructor; [exact Hinv'|].
    apply (IH d); [exact Hinv'| |exact Hm]. cbn. lia.
Qed.

(** C9: along every sequence of [acquire_stack] and [release_stack] calls
    from program start in which no prefix releases more than it acquired,
    [0 <= locked <= allocated <= DEFAULT_MAX_STACKS] holds after every
    call, the one that ends the process included. *)
Theorem pool_invariant_preserved (h : heap) (answers : list Z) (cs : list pool_call) :
  releases_matched 0 cs = true ->
  Forall pool_inv (trace cs (initial_state h answers)).
Proof.
  intros Hm. apply (trace_inv cs 0); [|reflexivity|exact Hm].
  unfold pool_inv, DEFAULT_MAX_STACKS. cbn. lia.
Qed.

Lemma pool_invariant_preserved_witness :
  Forall pool_inv
    (trace [Acquire; Acquire; Release; Acquire; Release; Release; Acquire]
       (initial_state zero_heap [2 ^ 40; 2 ^ 41])).
Proof.
  apply pool_invariant_preserved. reflexivity.
Defined.

(** ** [basic_vector] *)

Section BasicVectorFacts.
Context {T : Type} {E : Elem T} {L : ElemLaws T}.

Lemma push_back_eq (t : T) (v : basic_vector T) (s : state) :
  BasicVector.push_back t v s =
  (Ok (BasicVector.set_end (end_ v + sizeof T) v),
   set_mem (memcpy_heap (end_ v) (to_bytes t) (mem s)) s).
Proof. reflexivity. Qed.

Lemma represents_ctor (p : Z) (s : state) :
  represents s (BasicVector.ctor (T:=T) p) [].
Proof.
  split; [cbn; lia|]. intros i x Hi. discriminate.
Qed.

Lemma represents_length (s : state) (v : basic_vector T) (xs : list T) :
  represents s v xs -> end_ v - begin v = Z.of_nat (length xs) * sizeof T.
Proof. intros [He _]. lia. Qed.

Lemma represents_push_back (t : T) (v : basic_vector T) (xs : list T) (s : state) :
  representable t -> represents s v xs ->
  represents (set_mem (memcpy_heap (end_ v) (to_bytes t) (mem s)) s)
    (BasicVector.set_end (end_ v + sizeof T) v) (xs ++ [t]).
Proof.
  intros Ht [He Hx]. pose proof sizeof_pos as Hp. split.
  - cbn. rewrite length_app. cbn. lia.
  - intros i x Hi. cbn [begin BasicVector.set_end].
    apply lookup_snoc_Some in Hi as [[Hlt Hi]|[-> ->]].
    + rewrite load_memcpy_other; [apply Hx; exact Hi|].
      left. rewrite He. nia.
    + rewrite <- He. apply load_memcpy_same. exact Ht.
Qed.

Lemma represents_pop_back (v : basic_vector T) (xs : list T) (s : state) :
  xs <> [] -> represents s v xs ->
  BasicVector.pop_back v s =
    (Ok (BasicVector.set_end (end_ v - sizeof T) v), s) /\
  represents s (BasicVector.set_end (end_ v - sizeof T) v)
    (take (length xs - 1) xs).
Proof.
  intros Hne [He Hx]. pose proof sizeof_pos as Hp.
  assert (Hlen : (0 < length xs)%nat) by (destruct xs; [congruence|cbn; lia]).
  split.
  - unfold BasicVector.pop_back, assert, bind.
    destruct (Z.ltb_spec (begin v) (end_ v)) as [_|Hge]; [reflexivity|nia].
  - split.
    + cbn. rewrite length_take_le by lia. nia.
    + intros i x Hi. apply lookup_take_Some in Hi as [Hi _].
      apply Hx. exact Hi.
Qed.

Lemma push_all_represents (ts : list T) : forall (v : basic_vector T) xs s,
  Forall representable ts -> represents s v xs ->
  exists v' s',
    push_all ts v s = (Ok v', s') /\ represents s' v' (xs ++ ts) /\
    begin v' = begin v.
Proof.
  induction ts as [|t ts IH]; intros v xs s Hts Hv.
  - exists v, s. rewrite app_nil_r. repeat split; try apply Hv.
  - apply Forall_cons in Hts as [Ht Hts].
    cbn [push_all]. unfold bind. rewrite push_back_eq.
    destruct (IH _ _ _ Hts (represents_push_back t v xs s Ht Hv))
      as (v' & s' & Hrun & Hrep & Hb).
    exists v', s'. rewrite Hrun. rewrite <- app_assoc in Hrep.
    repeat split; try apply Hrep. exact Hb.
Qed.

Lemma run_calls_represents (cs : list (vector_call T)) :
  forall (v : basic_vector T) xs s,
  Forall call_representable cs -> pops_covered (length xs) cs = true ->
  represents s v xs ->
  exists v' s',
    run_calls cs v s = (Ok v', s') /\
    represents s' v' (model_calls cs xs) /\
    begin v' = begin v /\
    Z.of_nat (length (model_calls cs xs)) = Z.of_nat (length xs) + net_pushes cs.
Proof.
  induction cs as [|c cs IH]; intros v xs s Hcs Hcov Hv.
  - exists v, s. cbn. repeat split; try apply Hv. lia.
  - apply Forall_cons in Hcs as [Hc Hcs]. destruct c as [t|].
    + cbn [run_calls run_call model_calls net_pushes pops_covered] in *.
      unfold bind. rewrite push_back_eq.
      pose proof (represents_push_back t v xs s Hc Hv) as Hrep0.
      edestruct IH as (v' & s' & Hrun & Hrep & Hb & Hn);
        [exact Hcs| |exact Hrep0|].
      { rewrite length_app. cbn. rewrite Nat.add_1_r. exact Hcov. }
      exists v', s'. rewrite Hrun. repeat split; try apply Hrep; [exact Hb|].
      rewrite Hn, length_app. cbn. lia.
    + cbn [run_calls run_call model_calls net_pushes pops_covered] in *.
      destruct (length xs) as [|d] eqn:Hlen; [discriminate|].
      assert (Hne : xs <> []) by (intros ->; discriminate).
      destruct (represents_pop_back v xs s Hne Hv) as [Hpop Hrep0].
      unfold bind. rewrite Hpop. rewrite Hlen in Hrep0.
      edestruct IH as (v' & s' & Hrun & Hrep & Hb & Hn);
        [exact Hcs| |exact Hrep0|].
      { rewrite length_take_le by lia.
        replace (S d - 1)%nat with d by lia. exact Hcov. }
      exists v', s'. rewrite Hrun. repeat split; try apply Hrep; [exact Hb|].
      rewrite Hn, length_take_le by lia. lia.
Qed.

(** What [size] computes for a vector holding [n] elements. *)
Lemma size_of_span (v : basic_vector T) (n : Z) :
  end_ v - begin v = n * sizeof T ->
  BasicVector.size v = wrap (- (n * sizeof T)) / sizeof T.
Proof.
  intros Hs. unfold BasicVector.size. do 2 f_equal. lia.
Qed.

(** [size] is zero exactly on the empty vector, within the address
    space. *)
Lemma size_zero_iff (v : basic_vector T) (n : Z) :
  end_ v - begin v = n * sizeof T -> 0 <= n ->
  (n + 1) * sizeof T <= 2 ^ SIZE_WIDTH ->
  (BasicVector.size v = 0 <-> n = 0).
Proof.
  intros Hs Hn Hfit. pose proof sizeof_pos as Hp.
  rewrite (size_of_span v n Hs). split.
  - intros Hz. destruct (Z.eq_dec n 0) as [|Hne]; [assumption|exfalso].
    assert (Hw : wrap (- (n * sizeof T)) = 2 ^ SIZE_WIDTH - n * sizeof T).
    { unfold wrap. symmetry. apply Z.mod_unique with (q := -1); nia. }
    rewrite Hw in Hz.
    apply Z.div_small_iff in Hz; [|lia].
    destruct Hz as [Hz|Hz]; [|lia].
    nia.
  - intros ->. cbn. unfold wrap. rewrite Z.mod_0_l by (unfold SIZE_WIDTH; lia).
    apply Z.div_0_l. lia.
Qed.
End BasicVectorFacts.

Section BasicVectorClaims.
Context {T : Type} {E : Elem T} {L : ElemLaws T}.

(** What [size] returns after a call sequence on a vector that starts
    empty: the wrapped negated byte span, divided by the element
    size. *)
Lemma size_after_calls (cs : list (vector_call T)) (p : Z) (s : state) :
  Forall call_representable cs -> pops_covered 0 cs = true ->
  exists v s',
    run_calls cs (BasicVector.ctor p) s = (Ok v, s') /\
    BasicVector.size v = wrap (- (net_pushes cs * sizeof T)) / sizeof T.
Proof.
  intros Hcs Hcov.
  destruct (run_calls_represents cs (BasicVector.ctor p) [] s Hcs Hcov
              (represents_ctor p s)) as (v & s' & Hrun & Hrep & _ & Hn).
  exists v, s'. split; [exact Hrun|].
  apply size_of_span. rewrite (represents_length _ _ _ Hrep), Hn. cbn. lia.
Qed.

(** C2: after pushing the values [ts] on an empty vector, [operator[]]
    at an index [i] below their number passes its assertion and returns
    a reference to the [i]-th value pushed. *)
Theorem push_back_index_roundtrip (ts : list T) (p : Z) (s : state)
    (i : nat) (x : T) :
  Forall representable ts ->
  Z.of_nat (length ts) * sizeof T < 2 ^ SIZE_WIDTH ->
  ts !! i = Some x ->
  exists v s' r,
    push_all ts (BasicVector.ctor p) s = (Ok v, s') /\
    BasicVector.index (Z.of_nat i) v s' = (Ok r, s') /\
    load T r s' = x.
Proof.
  intros Hts Hfit Hi. pose proof sizeof_pos as Hp.
  destruct (push_all_represents ts (BasicVector.ctor p) [] s Hts
              (represents_ctor p s)) as (v & s' & Hrun & Hrep & Hb).
  cbn [app] in Hrep. pose proof (represents_length _ _ _ Hrep) as Hspan.
  destruct Hrep as [_ Hx]. apply lookup_lt_Some in Hi as Hlt.
  exists v, s', (begin v + Z.of_nat i * sizeof T).
  split; [exact Hrun|]. split; [|apply Hx; exact Hi].
  unfold BasicVector.index, assert, bind. rewrite Hspan.
  rewrite !wrap_small by nia.
  destruct (Z.ltb_spec (Z.of_nat i * sizeof T) (Z.of_nat (length ts) * sizeof T))
    as [_|Hge]; [reflexivity|nia].
Qed.

(** C10: on a vector holding [xs] followed by [x], [pop] passes its
    assertion and returns the reference [back] designates, to the
    slot right at the new [end]; that slot still reads [x], the vector
    now holds [xs], one element less, and memory is untouched. *)
Theorem pop_returns_last (v : basic_vector T) (xs : list T) (x : T) (s : state) :
  represents s v (xs ++ [x]) ->
  Z.of_nat (length (xs ++ [x])) * sizeof T < 2 ^ SIZE_WIDTH ->
  exists r v',
    BasicVector.pop v s = (Ok (r, v'), s) /\
    BasicVector.back v s = (Ok r, s) /\
    r = end_ v' /\
    load T r s = x /\
    represents s v' xs /\
    span_count v' = span_count v - 1.
Proof.
  intros Hrep Hfit. pose proof sizeof_pos as Hp.
  pose proof (represents_length _ _ _ Hrep) as Hspan.
  rewrite length_app in Hspan, Hfit. cbn [length] in Hspan, Hfit.
  assert (Hlt : (begin v <? end_ v) = true) by (apply Z.ltb_lt; nia).
  exists (end_ v - sizeof T), (BasicVector.set_end (end_ v - sizeof T) v).
  unfold BasicVector.pop, BasicVector.back, assert, bind. rewrite Hlt.
  repeat split.
  - destruct Hrep as [_ Hx].
    replace (end_ v - sizeof T) with (begin v + Z.of_nat (length xs) * sizeof T)
      by nia.
    apply Hx. apply lookup_snoc_Some. right. split; reflexivity.
  - cbn. nia.
  - intros i y Hi. destruct Hrep as [_ Hx]. cbn [begin BasicVector.set_end].
    apply Hx. apply lookup_app_l_Some. exact Hi.
  - unfold span_count. cbn [begin end_ BasicVector.set_end].
    replace (end_ v - sizeof T - begin v) with (Z.of_nat (length xs) * sizeof T)
      by nia.
    rewrite Hspan, !wrap_small by nia.
    rewrite !Z.div_mul by lia. lia.
Qed.
End BasicVectorClaims.

(** C1: after a single [push_back] on an empty [basic_vector<int>] —
    one push, no pop — [size] returns [2^62 - 1]: the subtraction in
    [size] is [begin - end], the negated span. *)
Theorem size_after_one_push :
  exists v s',
    run_calls [PushBack (7 : int)] (BasicVector.ctor 4096) (boot 0) = (Ok v, s') /\
    net_pushes [PushBack (7 : int)] = 1 /\
    BasicVector.size v = 2 ^ 62 - 1 /\
    BasicVector.size v <> net_pushes [PushBack (7 : int)].
Proof.
  eexists _, _. split; [reflexivity|]. vm_compute. repeat split. discriminate.
Qed.

Lemma push_back_index_roundtrip_witness :
  exists v s' r,
    push_all [10; -20; 30 : int] (BasicVector.ctor 4096) (boot 0) = (Ok v, s') /\
    BasicVector.index 1 v s' = (Ok r, s') /\
    load int r s' = -20.
Proof.
  apply (push_back_index_roundtrip [10; -20; 30 : int] 4096 (boot 0) 1 (-20)).
  - repeat constructor; cbn; lia.
  - vm_compute. reflexivity.
  - reflexivity.
Defined.

Lemma pop_returns_last_witness :
  exists r v',
    BasicVector.pop two_ints_vector two_ints = (Ok (r, v'), two_ints) /\
    BasicVector.back two_ints_vector two_ints = (Ok r, two_ints) /\
    r = end_ v' /\
    load int r two_ints = -20 /\
    represents two_ints v' [10] /\
    span_count v' = span_count two_ints_vector - 1.
Proof.
  apply (pop_returns_last (T := int) two_ints_vector [10] (-20) two_ints).
  - split; [reflexivity|].
    intros [|[|i]] x Hx; cbn in Hx; try discriminate;
      injection Hx as <-; vm_compute; reflexivity.
  - vm_compute. reflexivity.
Defined.

(** ** [vector_max] *)

Section VectorMaxFacts.
Context {T : Type} {E : Elem T}.

Lemma in_stacks_true (i : Z) :
  0 <= i < DEFAULT_MAX_STACKS ->
  (0 <=? i) && (i <? DEFAULT_MAX_STACKS) = true.
Proof.
  intros Hi. apply andb_true_iff. split; [apply Z.leb_le|apply Z.ltb_lt]; lia.
Qed.

(** What a returning constructor has done. *)
Lemma vector_max_ctor_ok (max : Z) (s s1 : state) (v : vector_max T) :
  pool_inv s -> stacks_wf s ->
  VectorMax.ctor max s = (Ok v, s1) ->
  vm_st v = locked s /\
  end_ (vm_base v) = begin (vm_base v) /\
  vm_capacity v = begin (vm_base v) + wrap (max * sizeof T) /\
  locked s1 = locked s /\ 0 <= locked s1 < allocated s1 /\
  allocated s1 <= DEFAULT_MAX_STACKS /\ stacks_wf s1 /\
  exists st, stacks s1 !! Z.to_nat (locked s) = Some st /\ sp st = vm_capacity v.
Proof.
  intros Hinv Hwf H. unfold VectorMax.ctor in H. unfold bind at 1 in H.
  destruct (acquire_stack s) as [[i| |] sa] eqn:Ha; try discriminate.
  pose proof (acquire_stack_wf s Hwf) as Hwfa. rewrite Ha in Hwfa. cbn in Hwfa.
  destruct (acquire_stack_ok s i sa Hinv Ha)
    as (-> & Hi & Hl & Hla & Ham & _).
  destruct Hinv as (H0 & _). clear Ha.
  unfold stacks_wf in *. unfold_comp.
  rewrite (in_stacks_true _ Hi) in H.
  destruct (stacks sa !! Z.to_nat (locked s)) as [st|] eqn:Hst; [|discriminate].
  cbn in H. rewrite Hst in H. cbn in H.
  injection H as <- <-. cbn.
  rewrite length_insert, Hl.
  replace (locked s + 1 - 1) with (locked s) by lia.
  rewrite (wrap_small (locked s)) by (unfold_size; lia).
  repeat split; try lia; try assumption.
  eexists. split; [apply list_lookup_insert_eq|reflexivity].
  apply lookup_lt_Some in Hst. exact Hst.
Qed.

(** On a stack that is materialised and free, the constructor carves
    at its frontier. *)
Lemma vector_max_ctor_unlocked (max : Z) (s : state) (st : stack) :
  stacks_wf s -> 0 <= locked s -> locked s < allocated s ->
  allocated s <= DEFAULT_MAX_STACKS ->
  stacks s !! Z.to_nat (locked s) = Some st ->
  exists s1,
    VectorMax.ctor max s =
    (Ok {| vm_base := BasicVector.ctor (T:=T) (sp st);
           vm_st := locked s;
           vm_capacity := sp st + wrap (max * sizeof T) |}, s1).
Proof.
  intros Hwf H0 H1 H2 Hst. unfold VectorMax.ctor. unfold bind at 1.
  rewrite acquire_stack_unlocked by assumption.
  unfold_comp. cbn.
  rewrite (in_stacks_true (locked s)) by lia.
  rewrite Hst. cbn. rewrite Hst. cbn.
  eexists. reflexivity.
Qed.
End VectorMaxFacts.

(** C4: two [vector_max] constructed one after the other take their space
    from the same stack; the second begins where the capacity of the
    first ends, that is at the first's [begin] plus the [size_t] product
    [max1 * sizeof(T1)] (the integer product when it fits a [size_t]),
    and no byte belongs to both carved ranges. *)
Theorem vector_max_regions_adjacent {T1 T2 : Type} {E1 : Elem T1} {E2 : Elem T2}
    (max1 max2 : Z) (s s1 : state) (v1 : vector_max T1) :
  pool_inv s -> stacks_wf s ->
  VectorMax.ctor max1 s = (Ok v1, s1) ->
  exists (v2 : vector_max T2) (s2 : state),
    VectorMax.ctor max2 s1 = (Ok v2, s2) /\
    vm_st v2 = vm_st v1 /\
    begin (vm_base v2) = vm_capacity v1 /\
    begin (vm_base v2) = begin (vm_base v1) + wrap (max1 * sizeof T1) /\
    (0 <= max1 * sizeof T1 < 2 ^ SIZE_WIDTH ->
     begin (vm_base v2) = begin (vm_base v1) + max1 * sizeof T1) /\
    forall x, carved v1 x -> ~ carved v2 x.
Proof.
  intros Hinv Hwf H1.
  destruct (vector_max_ctor_ok max1 s s1 v1 Hinv Hwf H1)
    as (Hst1 & _ & Hcap & Hl & Hl1 & Ha1 & Hwf1 & st & Hlook & Hsp).
  rewrite <- Hl in Hlook.
  destruct (vector_max_ctor_unlocked (T:=T2) max2 s1 st Hwf1) as [s2 H2];
    try lia; [exact Hlook|].
  eexists _, s2. split; [exact H2|]. cbn.
  repeat split.
  - congruence.
  - exact Hsp.
  - congruence.
  - intros Hfit. rewrite Hsp, Hcap. rewrite wrap_small by exact Hfit. reflexivity.
  - intros x [_ Hx1] [Hx2 _]. cbn in Hx2. lia.
Qed.

Lemma vector_max_regions_adjacent_witness :
  exists (v2 : vector_max byte) (s2 : state),
    VectorMax.ctor 100 (VectorMax.ctor (T:=int) 5 (boot 1)).2 = (Ok v2, s2) /\
    vm_st v2 = 0 /\
    begin (vm_base v2) = 2 ^ 40 + 20 /\
    begin (vm_base v2) = 2 ^ 40 + wrap (5 * sizeof int) /\
    (0 <= 5 * sizeof int < 2 ^ SIZE_WIDTH ->
     begin (vm_base v2) = 2 ^ 40 + 5 * sizeof int) /\
    forall x,
      carved {| vm_base := BasicVector.ctor (T:=int) (2 ^ 40); vm_st := 0;
                vm_capacity := 2 ^ 40 + 20 |} x ->
      ~ carved v2 x.
Proof.
  apply (vector_max_regions_adjacent (T1:=int) (T2:=byte) 5 100 (boot 1)
           (VectorMax.ctor (T:=int) 5 (boot 1)).2
           {| vm_base := BasicVector.ctor (T:=int) (2 ^ 40); vm_st := 0;
              vm_capacity := 2 ^ 40 + 20 |}).
  - unfold pool_inv. vm_compute. repeat split; discriminate.
  - vm_compute. reflexivity.
  - vm_compute. reflexivity.
Defined.

(** ** [vector_pool] *)

Section VectorPoolFacts.
Context {T : Type} {E : Elem T} {L : ElemLaws T}.

(** A freshly constructed pool has no element and an empty free list. *)
Lemma vector_pool_ctor_empty (s s' : state) (v : vector_pool T) :
  VectorPool.ctor s = (Ok v, s') ->
  end_ (vp_base v) = begin (vp_base v) /\
  end_ (free_list v) = begin (free_list v).
Proof.
  unfold VectorPool.ctor, Vector.ctor. intros H.
  unfold bind in H.
  destruct (acquire_stack s) as [[i| |] sa]; try discriminate.
  destruct (stack_at i sa) as [[st| |] sb]; try discriminate.
  unfold ret in H.
  destruct (acquire_stack sb) as [[j| |] sc]; try discriminate.
  destruct (stack_at j sc) as [[st'| |] sd]; try discriminate.
  injection H as <- <-. split; reflexivity.
Qed.

(** With an empty free list, [alloc] appends. *)
Lemma alloc_fresh (t : T) (v : vector_pool T) (s : state) :
  end_ (free_list v) = begin (free_list v) ->
  begin (vp_base v) <= end_ (vp_base v) ->
  VectorPool.alloc t v s =
  (Ok (end_ (vp_base v),
       {| vp_base := BasicVector.set_end (end_ (vp_base v) + sizeof T) (vp_base v);
          free_list := free_list v |}),
   set_mem (memcpy_heap (end_ (vp_base v)) (to_bytes t) (mem s)) s).
Proof.
  intros Hf Hb. pose proof sizeof_pos as Hp.
  unfold VectorPool.alloc, BasicVector.size. rewrite Hf, Z.sub_diag. cbn [negb Z.eqb wrap].
  change (wrap 0 / @sizeof ptr ptr_elem =? 0) with true. cbn [negb].
  unfold bind at 1. rewrite push_back_eq.
  unfold BasicVector.back, assert, bind. cbn [begin end_ BasicVector.set_end].
  destruct (Z.ltb_spec (begin (vp_base v)) (end_ (vp_base v) + sizeof T))
    as [_|Hge]; [|lia].
  unfold ret. do 3 f_equal. lia.
Qed.

(** [reuseable] on a reference into the occupied range records it. *)
Lemma reuseable_ok (r : Z) (v : vector_pool T) (s : state) :
  begin (vp_base v) <= r < end_ (vp_base v) ->
  VectorPool.reuseable r v s =
  (Ok {| vp_base := vp_base v;
         free_list := BasicVector.set_end (end_ (free_list v) + 8) (free_list v) |},
   set_mem (memcpy_heap (end_ (free_list v)) (to_bytes (Elem := ptr_elem) r) (mem s)) s).
Proof.
  intros Hr. unfold VectorPool.reuseable, assert.
  replace ((begin (vp_base v) <=? r) && (r <? end_ (vp_base v))) with true
    by (symmetry; apply andb_true_iff; split; [apply Z.leb_le|apply Z.ltb_lt]; lia).
  reflexivity.
Qed.

(** With one recorded reference [r] in the free list, [alloc] writes
    over the element at [r] and returns [r]. *)
Lemma alloc_reuse (t : T) (r : Z) (v : vector_pool T) (s : state) :
  end_ (free_list v) = begin (free_list v) + 8 ->
  load ptr (E := ptr_elem) (begin (free_list v)) s = r ->
  VectorPool.alloc t v s =
  (Ok (r, {| vp_base := vp_base v;
             free_list := BasicVector.set_end (begin (free_list v)) (free_list v) |}),
   set_mem (memcpy_heap r (to_bytes t) (mem s)) s).
Proof.
  intros Hf Hr.
  unfold VectorPool.alloc, BasicVector.size. rewrite Hf.
  replace (begin (free_list v) - (begin (free_list v) + 8)) with (-8) by lia.
  change (negb (wrap (-8) / @sizeof ptr ptr_elem =? 0)) with true. cbn [negb].
  unfold BasicVector.pop, assert, bind at 1. rewrite Hf.
  destruct (Z.ltb_spec (begin (free_list v)) (begin (free_list v) + 8))
    as [_|Hge]; [|lia].
  unfold bind, ret, get, memcpy, modify. cbn [fst snd end_ BasicVector.set_end].
  replace (begin (free_list v) + 8 - @sizeof ptr ptr_elem)
    with (begin (free_list v)) by (cbn; lia).
  rewrite Hr. reflexivity.
Qed.
End VectorPoolFacts.

(** C5: on a [vector_pool] with no element and an empty free list, after
    [alloc(a)], [alloc(b)], [reuseable] on the reference the first call
    returned and [alloc(c)], the reference of the last call is the one of
    the first, and the element there reads [c]. *)
Theorem vector_pool_reuses_slot {T : Type} {E : Elem T} {L : ElemLaws T}
    (a b c : T) (v : vector_pool T) (s : state) :
  end_ (vp_base v) = begin (vp_base v) ->
  end_ (free_list v) = begin (free_list v) ->
  0 <= begin (vp_base v) < 2 ^ SIZE_WIDTH ->
  representable c ->
  exists ra rb rc v' s',
    alloc_alloc_reuse_alloc a b c v s = (Ok (ra, rb, rc, v'), s') /\
    rc = ra /\ rb <> ra /\
    load T rc s' = c.
Proof.
  intros Hb Hf Hrange Hc. pose proof sizeof_pos as Hp.
  unfold alloc_alloc_reuse_alloc.
  unfold bind at 1. rewrite alloc_fresh by (assumption || lia). cbn [fst snd].
  unfold bind at 1. rewrite alloc_fresh by (cbn; assumption || lia).
  cbn [fst snd vp_base free_list begin end_ BasicVector.set_end].
  unfold bind at 1. rewrite reuseable_ok by (cbn; lia).
  cbn [fst snd vp_base free_list begin end_ BasicVector.set_end].
  unfold bind at 1.
  rewrite (alloc_reuse c (end_ (vp_base v))).
  - unfold ret. cbn [fst snd]. eexists _, _, _, _, _. split; [reflexivity|].
    split; [reflexivity|]. split; [lia|].
    apply load_memcpy_same. exact Hc.
  - cbn. lia.
  - cbn [free_list begin BasicVector.set_end]. rewrite <- Hf.
    apply (load_memcpy_same (L := ptr_laws)). cbn. lia.
Qed.

Lemma vector_pool_reuses_slot_witness :
  exists ra rb rc v' s',
    alloc_alloc_reuse_alloc {| a := 1 |} {| a := 2 |} {| a := 4 |}
      fresh_pool fresh_pool_state = (Ok (ra, rb, rc, v'), s') /\
    rc = ra /\ rb <> ra /\
    load MyObject rc s' = {| a := 4 |}.
Proof.
  apply (vector_pool_reuses_slot {| a := 1 |} {| a := 2 |} {| a := 4 |}
           fresh_pool fresh_pool_state).
  - reflexivity.
  - reflexivity.
  - vm_compute. split; [discriminate|reflexivity].
  - vm_compute. split; [discriminate|reflexivity].
Defined.

(** ** [vector] *)

Section VectorFacts.
Context {T : Type} {E : Elem T}.

(** Pushing moves [end] by the bytes pushed and writes memory only. *)
Lemma push_all_ok (ts : list T) : forall (v : basic_vector T) (s : state),
  exists h,
    push_all ts v s =
    (Ok (BasicVector.set_end (end_ v + Z.of_nat (length ts) * sizeof T) v),
     set_mem h s).
Proof.
  induction ts as [|t ts IH]; intros v s.
  - exists (mem s). cbn. unfold ret. destruct v, s. cbn.
    unfold BasicVector.set_end, set_mem. cbn. do 3 f_equal. lia.
  - cbn [push_all]. unfold bind.
    change (BasicVector.push_back t v s) with
      (Ok (BasicVector.set_end (end_ v + sizeof T) v),
       set_mem (memcpy_heap (end_ v) (to_bytes t) (mem s)) s).
    destruct (IH (BasicVector.set_end (end_ v + sizeof T) v)
                (set_mem (memcpy_heap (end_ v) (to_bytes t) (mem s)) s)) as [h Hh].
    exists h. rewrite Hh. unfold BasicVector.set_end, set_mem. cbn.
    do 3 f_equal. lia.
Qed.
End VectorFacts.

(** C6, as the code has it: constructing a [vector], pushing any number
    of elements and destroying it gives the lock back and leaves the [sp]
    of its stack where it was at construction, at the vector's [begin]:
    the pushes moved only the vector's own [end].  The next [vector]
    constructed gets the same slot and begins at the same address. *)
Theorem vector_lifecycle_keeps_frontier {T : Type} {E : Elem T}
    (ts : list T) (s s' : state) (i : Z) (v : basic_vector T) :
  pool_inv s -> stacks_wf s ->
  lifecycle ts s = (Ok (i, v), s') ->
  locked s' = locked s /\
  end_ v = begin v + Z.of_nat (length ts) * sizeof T /\
  (exists st, stacks s' !! Z.to_nat i = Some st /\ sp st = begin v) /\
  exists s'', Vector.ctor (T:=T) s' = (Ok (i, BasicVector.ctor (begin v)), s'').
Proof.
  intros Hinv Hwf H. unfold lifecycle, Vector.ctor, Vector.dtor in H.
  unfold bind in H.
  destruct (acquire_stack s) as [[j| |] sa] eqn:Ha; try discriminate.
  pose proof (acquire_stack_wf s Hwf) as Hwfa. rewrite Ha in Hwfa. cbn in Hwfa.
  destruct (acquire_stack_ok s j sa Hinv Ha) as (-> & Hi & Hl & Hla & Ham & _).
  destruct Hinv as (H0 & _).
  destruct (stacks_wf_lookup sa (locked s) Hwfa Hi) as [st Hst].
  unfold stack_at in H. rewrite (in_stacks_true _ Hi), Hst in H.
  unfold ret at 1 in H. cbn [fst snd] in H.
  destruct (push_all_ok ts (BasicVector.ctor (sp st)) sa) as [h Hh].
  rewrite Hh in H.
  rewrite release_stack_ok in H by (cbn; unfold_size; lia).
  unfold ret in H. injection H as <- <- <-. cbn.
  repeat split; try lia.
  - exists st. split; [exact Hst|reflexivity].
  - unfold Vector.ctor, bind.
    rewrite acquire_stack_unlocked by (cbn; assumption || lia).
    cbn [locked set_locked set_mem].
    replace (locked sa - 1) with (locked s) by lia.
    unfold stack_at. cbn [stacks set_locked set_mem].
    rewrite (in_stacks_true _ Hi), Hst. unfold ret. eexists. reflexivity.
Qed.

Lemma vector_lifecycle_keeps_frontier_witness :
  locked (lifecycle (T:=int) [7; 8; 9] (boot 1)).2 = locked (boot 1) /\
  2 ^ 40 + 12 = 2 ^ 40 + Z.of_nat (length [7; 8; 9 : int]) * sizeof int /\
  (exists st,
     stacks (lifecycle (T:=int) [7; 8; 9] (boot 1)).2 !! Z.to_nat 0 = Some st /\
     sp st = 2 ^ 40) /\
  exists s'',
    Vector.ctor (T:=int) (lifecycle (T:=int) [7; 8; 9] (boot 1)).2 =
    (Ok (0, BasicVector.ctor (2 ^ 40)), s'').
Proof.
  apply (vector_lifecycle_keeps_frontier (T:=int) [7; 8; 9] (boot 1)
           (lifecycle (T:=int) [7; 8; 9] (boot 1)).2 0
           {| end_ := 2 ^ 40 + 12; begin := 2 ^ 40 |}).
  - unfold pool_inv. vm_compute. repeat split; discriminate.
  - vm_compute. reflexivity.
  - vm_compute. reflexivity.
Defined.

(** C6, as stated, fails: after a [vector<int>] was constructed at
    program start, one element pushed and the vector destroyed, the [sp]
    of its stack is below the vector's [end], not at or beyond it. *)
Lemma vector_frontier_not_advanced :
  exists i v s',
    lifecycle (T:=int) [7] (boot 1) = (Ok (i, v), s') /\
    ~ frontier_past s' i v.
Proof.
  eexists _, _, _. split; [vm_compute; reflexivity|].
  intros (st & Hst & Hle). vm_compute in Hst. injection Hst as <-.
  cbn in Hle. lia.
Qed.

(** ** The sample states are the ones the library produces *)

Example two_ints_run :
  push_all (T:=int) [10; -20] (BasicVector.ctor 4096) (boot 0) =
  (Ok two_ints_vector, two_ints).
Proof. vm_compute. reflexivity. Qed.

Example fresh_pool_run :
  VectorPool.ctor (T:=MyObject) (boot 2) = (Ok fresh_pool, fresh_pool_state).
Proof. vm_compute. reflexivity. Qed.

(** The assertions at the end of the test program: three objects
    allocated, the second one made reuseable and still reading 2, then a
    fourth allocated in its place. *)
Example test_program_pool :
  exists o1 o2 o3 o4 v s,
    (r1 <- VectorPool.alloc {| a := 1 |} fresh_pool ;;
     r2 <- VectorPool.alloc {| a := 2 |} r1.2 ;;
     r3 <- VectorPool.alloc {| a := 3 |} r2.2 ;;
     v3 <- VectorPool.reuseable r2.1 r3.2 ;;
     s3 <- get ;;
     assert (a (load MyObject r2.1 s3) =? 2) ;;;
     r4 <- VectorPool.alloc {| a := 4 |} v3 ;;
     ret (r1.1, r2.1, r3.1, r4.1, r4.2))%comp fresh_pool_state
    = (Ok (o1, o2, o3, o4, v), s) /\
    a (load MyObject o2 s) = 4 /\ a (load MyObject o4 s) = 4 /\ o2 = o4.
Proof.
  eexists _, _, _, _, _, _. split; [vm_compute; reflexivity|].
  vm_compute. repeat split.
Qed.

(** * Further properties of the code *)

(** ** [basic_vector]: bounds, composition, [size] *)

Lemma memcpy_heap_app bs1 : forall bs2 d h,
  memcpy_heap d (bs1 ++ bs2) h =
  memcpy_heap (d + Z.of_nat (length bs1)) bs2 (memcpy_heap d bs1 h).
Proof.
  induction bs1 as [|b bs1 IH]; intros bs2 d h.
  - cbn. rewrite Z.add_0_r. reflexivity.
  - cbn [app memcpy_heap length]. rewrite IH. f_equal. lia.
Qed.

Section BasicVectorMore.
Context {T : Type} {E : Elem T} {L : ElemLaws T}.

Lemma represents_index (v : basic_vector T) (xs : list T) (s : state)
    (i : nat) (x : T) :
  represents s v xs ->
  Z.of_nat (length xs) * sizeof T < 2 ^ SIZE_WIDTH ->
  xs !! i = Some x ->
  BasicVector.index (Z.of_nat i) v s = (Ok (begin v + Z.of_nat i * sizeof T), s) /\
  load T (begin v + Z.of_nat i * sizeof T) s = x.
Proof.
  intros Hrep Hfit Hi. pose proof sizeof_pos as Hp.
  pose proof (represents_length _ _ _ Hrep) as Hspan.
  apply lookup_lt_Some in Hi as Hlt. destruct Hrep as [_ Hx].
  split; [|apply Hx; exact Hi].
  unfold BasicVector.index, assert, bind. rewrite Hspan.
  rewrite !wrap_small by nia.
  destruct (Z.ltb_spec (Z.of_nat i * sizeof T) (Z.of_nat (length xs) * sizeof T))
    as [_|Hge]; [reflexivity|nia].
Qed.

(** The bytes [push_all] writes are the representations of the values,
    one after the other. *)
Lemma push_all_mem (ts : list T) : forall (v : basic_vector T) (s : state),
  push_all ts v s =
  (Ok (BasicVector.set_end (end_ v + Z.of_nat (length ts) * sizeof T) v),
   set_mem (memcpy_heap (end_ v) (concat (map to_bytes ts)) (mem s)) s).
Proof.
  induction ts as [|t ts IH]; intros v s.
  - cbn. unfold ret. destruct v, s. cbn.
    unfold BasicVector.set_end, set_mem. cbn. do 3 f_equal. lia.
  - cbn [push_all map concat length]. unfold bind. rewrite push_back_eq, IH.
    rewrite memcpy_heap_app, (to_bytes_length t).
    unfold BasicVector.set_end, set_mem. cbn. do 3 f_equal. lia.
Qed.

Lemma concat_to_bytes_take (ts : list T) : forall n : nat,
  take (n * Z.to_nat (sizeof T)) (concat (map to_bytes ts)) =
  concat (map to_bytes (take n ts)).
Proof.
  induction ts as [|t ts IH]; intros n.
  - cbn. rewrite !take_nil. reflexivity.
  - destruct n as [|n]; [reflexivity|].
    cbn [map concat take]. rewrite take_app, <- (to_bytes_nat_length t).
    rewrite take_ge by lia.
    replace (S n * length (to_bytes t) - length (to_bytes t))%nat
      with (n * length (to_bytes t))%nat by lia.
    rewrite (to_bytes_nat_length t), IH. reflexivity.
Qed.

(** X1: on a vector holding [xs], [operator[]] at an index from the
    number of elements on (as long as the [size_t] product
    [i * sizeof(T)] does not wrap) fails its assertion and changes
    nothing. *)
Theorem index_out_of_range (v : basic_vector T) (xs : list T) (s : state) (i : Z) :
  represents s v xs ->
  Z.of_nat (length xs) <= i ->
  i * sizeof T < 2 ^ SIZE_WIDTH ->
  BasicVector.index i v s = (Fatal, s).
Proof.
  intros Hrep Hi Hfit. pose proof sizeof_pos as Hp.
  pose proof (represents_length _ _ _ Hrep) as Hspan.
  unfold BasicVector.index, assert, bind. rewrite Hspan.
  rewrite !wrap_small by nia.
  destruct (Z.ltb_spec (i * sizeof T) (Z.of_nat (length xs) * sizeof T))
    as [Hlt|_]; [nia|reflexivity].
Qed.

(** X2: on an empty vector, [pop_back], [pop], [back] and [operator[]] at
    any index all fail their assertion and change nothing. *)
Theorem empty_vector_rejects (v : basic_vector T) (s : state) (i : Z) :
  end_ v = begin v ->
  BasicVector.pop_back v s = (Fatal, s) /\
  BasicVector.pop v s = (Fatal, s) /\
  BasicVector.back v s = (Fatal, s) /\
  BasicVector.index i v s = (Fatal, s).
Proof.
  intros He.
  unfold BasicVector.pop_back, BasicVector.pop, BasicVector.back,
    BasicVector.index, assert, bind.
  rewrite He, Z.ltb_irrefl, Z.sub_diag.
  pose proof (wrap_range (i * sizeof T)) as Hw.
  change (wrap 0) with 0.
  destruct (Z.ltb_spec (wrap (i * sizeof T)) 0) as [Hlt|_]; [lia|].
  repeat split.
Qed.

(** X3: the assertion of [operator[]] compares the wrapped product
    [i * sizeof(T)]: when [sizeof(T)] divides [2^64], the index
    [2^64 / sizeof(T)], a [size_t] beyond every element, passes it on any
    non-empty vector, and the reference returned is the one to the first
    element. *)
Theorem index_assertion_wraps (v : basic_vector T) (s : state) (q : Z) :
  sizeof T * q = 2 ^ SIZE_WIDTH -> 0 <= q < 2 ^ SIZE_WIDTH ->
  begin v < end_ v -> end_ v - begin v < 2 ^ SIZE_WIDTH ->
  span_count v < q /\
  BasicVector.index q v s = (Ok (begin v), s).
Proof.
  intros Hq Hsz Hne Hfit. pose proof sizeof_pos as Hp. split.
  - unfold span_count. rewrite wrap_small by lia.
    apply Z.div_lt_upper_bound; lia.
  - unfold BasicVector.index, assert, bind.
    replace (q * sizeof T) with (2 ^ SIZE_WIDTH) by lia.
    change (wrap (2 ^ SIZE_WIDTH)) with 0.
    rewrite wrap_small by lia.
    destruct (Z.ltb_spec 0 (end_ v - begin v)) as [_|Hge]; [|lia].
    unfold ret. rewrite Z.add_0_r. reflexivity.
Qed.

(** X4: after any sequence of [push_back] and [pop_back] calls on an
    empty vector in which no prefix pops more than it pushed,
    [operator[]] at an index below the number of elements left returns a
    reference to the value a list treated as a stack holds there. *)
Theorem run_calls_index (cs : list (vector_call T)) (p : Z) (s : state)
    (i : nat) (x : T) :
  Forall call_representable cs -> pops_covered 0 cs = true ->
  Z.of_nat (length (model_calls cs [])) * sizeof T < 2 ^ SIZE_WIDTH ->
  model_calls cs [] !! i = Some x ->
  exists v s' r,
    run_calls cs (BasicVector.ctor p) s = (Ok v, s') /\
    BasicVector.index (Z.of_nat i) v s' = (Ok r, s') /\
    load T r s' = x.
Proof.
  intros Hcs Hcov Hfit Hi.
  destruct (run_calls_represents cs (BasicVector.ctor p) [] s Hcs Hcov
              (represents_ctor p s)) as (v & s' & Hrun & Hrep & _ & _).
  destruct (represents_index v _ s' i x Hrep Hfit Hi) as [Hidx Hload].
  exists v, s', (begin v + Z.of_nat i * sizeof T).
  split; [exact Hrun|]. split; [exact Hidx|exact Hload].
Qed.

(** X5: when [sizeof(T)] divides [2^64], [size] after a call sequence
    that leaves [n > 0] elements returns [2^64 / sizeof(T) - n]. *)
Theorem size_of_nonempty (cs : list (vector_call T)) (p : Z) (s : state) (q : Z) :
  sizeof T * q = 2 ^ SIZE_WIDTH ->
  Forall call_representable cs -> pops_covered 0 cs = true ->
  0 < net_pushes cs <= q ->
  exists v s',
    run_calls cs (BasicVector.ctor p) s = (Ok v, s') /\
    BasicVector.size v = q - net_pushes cs.
Proof.
  intros Hq Hcs Hcov Hn. pose proof sizeof_pos as Hp.
  destruct (size_after_calls cs p s Hcs Hcov) as (v & s' & Hrun & Hsize).
  exists v, s'. split; [exact Hrun|]. rewrite Hsize.
  assert (Hw : wrap (- (net_pushes cs * sizeof T)) =
               (q - net_pushes cs) * sizeof T).
  { unfold wrap. symmetry. apply Z.mod_unique with (q := -1); nia. }
  rewrite Hw. apply Z.div_mul. lia.
Qed.

(** X6: [size] returns 0 exactly when the vector holds no element, as
    long as one more element would still fit the address space. *)
Theorem size_zero_iff_empty (v : basic_vector T) (xs : list T) (s : state) :
  represents s v xs ->
  (Z.of_nat (length xs) + 1) * sizeof T <= 2 ^ SIZE_WIDTH ->
  (BasicVector.size v = 0 <-> xs = []).
Proof.
  intros Hrep Hfit.
  rewrite (size_zero_iff v (Z.of_nat (length xs))
             (represents_length _ _ _ Hrep)) by lia.
  split.
  - intros Hz. destruct xs; [reflexivity|discriminate].
  - intros ->. reflexivity.
Qed.

(** X7: [push_multiple(elems, n)] with [n] values available at [elems]
    does what [n] calls of [push_back] on these values do, to the vector
    and to memory. *)
Theorem push_multiple_is_push_all (elems : list T) (n : Z)
    (v : basic_vector T) (s : state) :
  0 <= n <= Z.of_nat (length elems) ->
  n * sizeof T < 2 ^ SIZE_WIDTH ->
  BasicVector.push_multiple elems n v s =
  push_all (take (Z.to_nat n) elems) v s.
Proof.
  intros Hn Hfit. pose proof sizeof_pos as Hp.
  rewrite push_all_mem. unfold BasicVector.push_multiple, bind, memcpy, modify, ret.
  rewrite wrap_small by nia.
  rewrite Z2Nat.inj_mul by lia. rewrite concat_to_bytes_take.
  rewrite length_take_le by lia. rewrite Z2Nat.id by lia. reflexivity.
Qed.

(** X8: [push_back(t)] followed by [pop] returns a reference that reads
    [t], at the address where the vector ended, and gives the vector
    object back as it was. *)
Theorem push_back_pop_roundtrip (t : T) (v : basic_vector T) (s : state) :
  representable t -> begin v <= end_ v ->
  exists s',
    (v' <- BasicVector.push_back t v ;; BasicVector.pop v') s
      = (Ok (end_ v, v), s') /\
    load T (end_ v) s' = t.
Proof.
  intros Ht Hle. pose proof sizeof_pos as Hp.
  exists (set_mem (memcpy_heap (end_ v) (to_bytes t) (mem s)) s).
  unfold bind at 1. rewrite push_back_eq.
  unfold BasicVector.pop, assert, bind. cbn [begin end_ BasicVector.set_end].
  destruct (Z.ltb_spec (begin v) (end_ v + sizeof T)) as [_|Hge]; [|lia].
  unfold ret. split.
  - destruct v as [e b]. unfold BasicVector.set_end. cbn.
    replace (e + sizeof T - sizeof T) with e by lia. reflexivity.
  - apply load_memcpy_same. exact Ht.
Qed.
End BasicVectorMore.

Ltac solve_represents :=
  split;
  [reflexivity
  |let i := fresh "i" in
   let x := fresh "x" in
   let Hx := fresh "Hx" in
   intros i x Hx;
   repeat (destruct i as [|i];
           [cbn in Hx; injection Hx as <-; vm_compute; reflexivity|]);
   cbn in Hx; discriminate].

Ltac solve_calls := repeat constructor; cbn; lia.

Lemma index_out_of_range_witness :
  BasicVector.index 2 two_ints_vector two_ints = (Fatal, two_ints).
Proof.
  apply (index_out_of_range (T:=int) two_ints_vector [10; -20] two_ints 2).
  - solve_represents.
  - cbn. lia.
  - vm_compute. reflexivity.
Defined.

Lemma empty_vector_rejects_witness :
  BasicVector.pop_back (T:=int) (BasicVector.ctor 4096) (boot 0) = (Fatal, boot 0) /\
  BasicVector.pop (T:=int) (BasicVector.ctor 4096) (boot 0) = (Fatal, boot 0) /\
  BasicVector.back (T:=int) (BasicVector.ctor 4096) (boot 0) = (Fatal, boot 0) /\
  BasicVector.index (T:=int) 0 (BasicVector.ctor 4096) (boot 0) = (Fatal, boot 0).
Proof.
  apply (empty_vector_rejects (T:=int) (BasicVector.ctor 4096) (boot 0) 0).
  reflexivity.
Defined.

Lemma index_assertion_wraps_witness :
  span_count two_ints_vector < 2 ^ 62 /\
  BasicVector.index (2 ^ 62) two_ints_vector two_ints =
  (Ok (begin two_ints_vector), two_ints).
Proof.
  apply (index_assertion_wraps (T:=int) two_ints_vector two_ints (2 ^ 62)).
  - reflexivity.
  - vm_compute. split; [discriminate|reflexivity].
  - vm_compute. reflexivity.
  - vm_compute. reflexivity.
Defined.

Lemma run_calls_index_witness :
  exists v s' r,
    run_calls (T:=int) [PushBack 1; PushBack 2; PopBack; PushBack 3]
      (BasicVector.ctor 4096) (boot 0) = (Ok v, s') /\
    BasicVector.index 1 v s' = (Ok r, s') /\
    load int r s' = 3.
Proof.
  apply (run_calls_index (T:=int) [PushBack 1; PushBack 2; PopBack; PushBack 3]
           4096 (boot 0) 1 3).
  - solve_calls.
  - reflexivity.
  - vm_compute. reflexivity.
  - reflexivity.
Defined.

Lemma size_of_nonempty_witness :
  exists v s',
    run_calls (T:=int) [PushBack 1; PushBack 2; PopBack; PushBack 3]
      (BasicVector.ctor 4096) (boot 0) = (Ok v, s') /\
    BasicVector.size v =
    2 ^ 62 - net_pushes (T:=int) [PushBack 1; PushBack 2; PopBack; PushBack 3].
Proof.
  apply (size_of_nonempty (T:=int) [PushBack 1; PushBack 2; PopBack; PushBack 3]
           4096 (boot 0) (2 ^ 62)).
  - reflexivity.
  - solve_calls.
  - reflexivity.
  - vm_compute. split; [reflexivity|discriminate].
Defined.

Lemma size_zero_iff_empty_witness :
  BasicVector.size two_ints_vector = 0 <-> [10; -20 : int] = [].
Proof.
  apply (size_zero_iff_empty (T:=int) two_ints_vector [10; -20] two_ints).
  - solve_represents.
  - vm_compute. discriminate.
Defined.

Lemma push_multiple_is_push_all_witness :
  BasicVector.push_multiple (T:=int) [1; 2; 3] 2 (BasicVector.ctor 4096) (boot 0) =
  push_all (T:=int) (take (Z.to_nat 2) [1; 2; 3]) (BasicVector.ctor 4096) (boot 0).
Proof.
  apply (push_multiple_is_push_all (T:=int) [1; 2; 3] 2 (BasicVector.ctor 4096) (boot 0)).
  - cbn. lia.
  - vm_compute. reflexivity.
Defined.

Lemma push_back_pop_roundtrip_witness :
  exists s',
    (v' <- BasicVector.push_back (T:=int) 5 two_ints_vector ;; BasicVector.pop v')
      two_ints = (Ok (end_ two_ints_vector, two_ints_vector), s') /\
    load int (end_ two_ints_vector) s' = 5.
Proof.
  apply (push_back_pop_roundtrip (T:=int) 5 two_ints_vector two_ints).
  - cbn. lia.
  - cbn. lia.
Defined.

(** ** The pool: materialising stacks, refusals, unmatched releases *)

(** The state a materialising [acquire_stack] leaves. *)
Lemma acquire_stack_fresh (s : state) (p : Z) (rest : list Z) :
  allocated s = locked s -> 0 <= allocated s < DEFAULT_MAX_STACKS ->
  stacks_wf s -> os s = p :: rest -> p <> 0 ->
  acquire_stack s =
  (Ok (locked s),
   set_locked (locked s + 1)
     (set_stacks
        (<[Z.to_nat (allocated s) :=
             {| sp := p; memory := p; size := DEFAULT_LARGE_STACK |}]> (stacks s))
        (set_os rest (set_allocated (allocated s + 1) s)))).
Proof.
  intros Heq Ha Hwf Hos Hp.
  assert (Hlen : (Z.to_nat (allocated s) < length (stacks s))%nat).
  { rewrite Hwf. apply Z2Nat.inj_lt; unfold_size; lia. }
  unfold_comp. rewrite Heq in *. rewrite Z.eqb_refl.
  destruct (Z.eqb_spec (locked s) DEFAULT_MAX_STACKS) as [He|_]; [lia|].
  cbn. rewrite Hos. rewrite (in_stacks_true _ Ha). cbn.
  destruct (Z.eqb_spec p 0) as [Hz|_]; [contradiction|]. cbn.
  rewrite (in_stacks_true _ Ha). rewrite list_lookup_insert_eq by exact Hlen.
  rewrite !wrap_small by (unfold_size; lia). reflexivity.
Qed.

(** X9: when every materialised stack is locked, the pool is not full
    and the operating system refuses the reservation (or has no answer
    left), [acquire_stack] ends the process; the slot was already counted
    in [allocated], [locked] is as before. *)
Theorem acquire_stack_refused (s : state) :
  allocated s = locked s -> 0 <= allocated s < DEFAULT_MAX_STACKS ->
  hd 0 (os s) = 0 ->
  (acquire_stack s).1 = Fatal /\
  allocated (acquire_stack s).2 = allocated s + 1 /\
  locked (acquire_stack s).2 = locked s.
Proof.
  intros Heq Ha Hos.
  unfold_comp. rewrite <- Heq, Z.eqb_refl.
  destruct (Z.eqb_spec (allocated s) DEFAULT_MAX_STACKS) as [He|_]; [lia|].
  cbn. rewrite (in_stacks_true _ Ha).
  destruct (os s) as [|p rest]; cbn in *.
  - rewrite wrap_small by (unfold_size; lia). repeat split; congruence.
  - subst p. cbn. rewrite wrap_small by (unfold_size; lia).
    repeat split; congruence.
Qed.

Lemma acquire_stack_refused_witness :
  (acquire_stack (holding 2)).1 = Fatal /\
  allocated (acquire_stack (holding 2)).2 = allocated (holding 2) + 1 /\
  locked (acquire_stack (holding 2)).2 = locked (holding 2).
Proof.
  apply acquire_stack_refused.
  - vm_compute. reflexivity.
  - vm_compute. split; [discriminate|reflexivity].
  - vm_compute. reflexivity.
Defined.

(** X10: when every materialised stack is locked, the pool is not full
    and the operating system answers the address [p], [acquire_stack]
    returns the next slot, whose stack now has [sp = memory = p] and
    size [DEFAULT_LARGE_STACK]; both counters are one higher and the
    answer is used up. *)
Theorem acquire_stack_materialises (s : state) (p : Z) (rest : list Z) :
  allocated s = locked s -> 0 <= allocated s < DEFAULT_MAX_STACKS ->
  stacks_wf s -> os s = p :: rest -> p <> 0 ->
  exists s',
    acquire_stack s = (Ok (locked s), s') /\
    locked s' = locked s + 1 /\ allocated s' = allocated s + 1 /\
    os s' = rest /\ mem s' = mem s /\
    stacks s' !! Z.to_nat (locked s) =
      Some {| sp := p; memory := p; size := DEFAULT_LARGE_STACK |}.
Proof.
  intros Heq Ha Hwf Hos Hp.
  eexists. split; [apply (acquire_stack_fresh s p rest); assumption|].
  cbn. repeat split. rewrite <- Heq. apply list_lookup_insert_eq.
  rewrite Hwf. apply Z2Nat.inj_lt; unfold_size; lia.
Qed.

Lemma acquire_stack_materialises_witness :
  exists s',
    acquire_stack (boot 2) = (Ok (locked (boot 2)), s') /\
    locked s' = locked (boot 2) + 1 /\ allocated s' = allocated (boot 2) + 1 /\
    os s' = [2 * 2 ^ 40] /\ mem s' = mem (boot 2) /\
    stacks s' !! Z.to_nat (locked (boot 2)) =
      Some {| sp := 2 ^ 40; memory := 2 ^ 40; size := DEFAULT_LARGE_STACK |}.
Proof.
  apply (acquire_stack_materialises (boot 2) (2 ^ 40) [2 * 2 ^ 40]).
  - reflexivity.
  - vm_compute. split; [discriminate|reflexivity].
  - vm_compute. reflexivity.
  - vm_compute. reflexivity.
  - discriminate.
Defined.

Lemma acquire_stack_untouched (s : state) (j : Z) :
  pool_inv s -> 0 <= j < allocated s ->
  stacks (acquire_stack s).2 !! Z.to_nat j = stacks s !! Z.to_nat j.
Proof.
  intros (H0 & H1 & H2) Hj.
  unfold_comp. unfold_size. split_cases.
  all: try reflexivity.
  all: apply list_lookup_insert_ne; intros Hc; apply Z2Nat.inj in Hc; lia.
Qed.

(** X11: however it ends, [acquire_stack] writes no memory and leaves
    every stack that was already materialised as it was. *)
Theorem acquire_stack_frame (s : state) (j : Z) :
  pool_inv s -> 0 <= j < allocated s ->
  mem (acquire_stack s).2 = mem s /\
  stacks (acquire_stack s).2 !! Z.to_nat j = stacks s !! Z.to_nat j.
Proof.
  intros (H0 & H1 & H2) Hj.
  unfold_comp. unfold_size. split_cases.
  all: split; [reflexivity|].
  all: try reflexivity.
  all: apply list_lookup_insert_ne; intros Hc; apply Z2Nat.inj in Hc; lia.
Qed.

Lemma acquire_stack_frame_witness :
  mem (acquire_stack (set_os [7 * 2 ^ 40] (holding 2))).2 =
    mem (set_os [7 * 2 ^ 40] (holding 2)) /\
  stacks (acquire_stack (set_os [7 * 2 ^ 40] (holding 2))).2 !! Z.to_nat 1 =
    stacks (set_os [7 * 2 ^ 40] (holding 2)) !! Z.to_nat 1.
Proof.
  apply (acquire_stack_frame (set_os [7 * 2 ^ 40] (holding 2)) 1).
  - unfold pool_inv. vm_compute. repeat split; discriminate.
  - vm_compute. split; [discriminate|reflexivity].
Defined.

(** X12: [release_stack] checks nothing: called while no stack is held,
    it returns and leaves [locked] at [2^64 - 1], above [allocated]. *)
Theorem release_unmatched_wraps (s : state) :
  pool_inv s -> locked s = 0 ->
  exists s',
    release_stack s = (Ok tt, s') /\
    locked s' = 2 ^ SIZE_WIDTH - 1 /\ allocated s' = allocated s /\
    ~ pool_inv s'.
Proof.
  intros (H0 & H1 & H2) Hl.
  assert (Hw : wrap (locked s - 1) = 2 ^ SIZE_WIDTH - 1)
    by (rewrite Hl; reflexivity).
  exists (set_locked (wrap (locked s - 1)) s).
  split; [reflexivity|]. split; [exact Hw|]. split; [reflexivity|].
  intros (_ & Hc & _). cbn [locked allocated set_locked] in Hc.
  rewrite Hw in Hc. unfold_size. lia.
Qed.

Lemma release_unmatched_wraps_witness :
  exists s',
    release_stack (boot 1) = (Ok tt, s') /\
    locked s' = 2 ^ SIZE_WIDTH - 1 /\ allocated s' = allocated (boot 1) /\
    ~ pool_inv s'.
Proof.
  apply (release_unmatched_wraps (boot 1)).
  - unfold pool_inv. vm_compute. repeat split; discriminate.
  - reflexivity.
Defined.

(** Acquisitions that each materialise a stack. *)
Lemma acquire_n_fresh (n : nat) : forall s : state,
  stacks_wf s -> allocated s = locked s -> 0 <= allocated s ->
  allocated s + Z.of_nat n <= DEFAULT_MAX_STACKS ->
  (n <= length (os s))%nat -> Forall (fun p => p <> 0) (take n (os s)) ->
  exists s',
    acquire_n n s = (Ok (seqZ (locked s) (Z.of_nat n)), s') /\
    locked s' = locked s + Z.of_nat n /\
    allocated s' = allocated s + Z.of_nat n /\
    os s' = drop n (os s) /\ mem s' = mem s /\
    (forall j : nat, (j < Z.to_nat (allocated s))%nat ->
       stacks s' !! j = stacks s !! j) /\
    (forall (k : nat) (p : Z), (k < n)%nat -> os s !! k = Some p ->
       stacks s' !! (Z.to_nat (allocated s) + k)%nat =
       Some {| sp := p; memory := p; size := DEFAULT_LARGE_STACK |}).
Proof.
  induction n as [|n IH]; intros s Hwf Heq H0 Hmax Hlen Hnz.
  - exists s. cbn. unfold ret. rewrite Z.add_0_r, drop_0.
    repeat split; try lia.
  - destruct (os s) as [|p rest] eqn:Hos; [cbn in Hlen; lia|].
    cbn [take] in Hnz. apply Forall_cons in Hnz as [Hp Hnz].
    cbn [acquire_n]. unfold bind at 1.
    rewrite (acquire_stack_fresh s p rest) by (assumption || lia).
    set (s1 := set_locked _ _).
    assert (Hlt : (Z.to_nat (allocated s) < length (stacks s))%nat).
    { rewrite Hwf. apply Z2Nat.inj_lt; unfold_size; lia. }
    destruct (IH s1) as (s' & Hrun & Hl & Ha & Ho & Hm & Hold & Hnew).
    + unfold stacks_wf, s1. cbn. rewrite length_insert. exact Hwf.
    + unfold s1. cbn. lia.
    + unfold s1. cbn. lia.
    + unfold s1. cbn. lia.
    + unfold s1. cbn. cbn in Hlen. lia.
    + unfold s1. cbn. exact Hnz.
    + exists s'. unfold bind at 1. rewrite Hrun. unfold ret.
      unfold s1 in Hl, Ha, Ho, Hm, Hold, Hnew. cbn in Hl, Ha, Ho, Hm, Hold, Hnew.
      split.
      { f_equal. f_equal. rewrite (seqZ_cons (locked s)) by lia.
        f_equal. f_equal; lia. }
      split; [lia|]. split; [lia|]. split; [exact Ho|]. split; [exact Hm|].
      split.
      * intros j Hj. rewrite Hold by lia.
        apply list_lookup_insert_ne. lia.
      * intros [|k] q Hk Hq.
        -- cbn in Hq. injection Hq as <-. rewrite Nat.add_0_r.
           rewrite Hold by lia. apply list_lookup_insert_eq. exact Hlt.
        -- cbn in Hq.
           replace (Z.to_nat (allocated s) + S k)%nat
             with (Z.to_nat (allocated s + 1) + k)%nat by lia.
           apply Hnew; [lia|exact Hq].
Qed.

(** X13: from program start, [n] calls of [acquire_stack] (at most
    [DEFAULT_MAX_STACKS]) that the operating system answers with non-null
    addresses return the slots 0 to [n - 1] in order, and stack [k] is the
    reservation of the [k]-th answer. *)
Theorem acquire_n_from_start (n : nat) (h : heap) (answers : list Z) :
  Z.of_nat n <= DEFAULT_MAX_STACKS -> (n <= length answers)%nat ->
  Forall (fun p => p <> 0) (take n answers) ->
  exists s',
    acquire_n n (initial_state h answers) = (Ok (seqZ 0 (Z.of_nat n)), s') /\
    locked s' = Z.of_nat n /\ allocated s' = Z.of_nat n /\
    forall (k : nat) (p : Z), (k < n)%nat -> answers !! k = Some p ->
      stacks s' !! k = Some {| sp := p; memory := p; size := DEFAULT_LARGE_STACK |}.
Proof.
  intros Hn Hlen Hnz.
  destruct (acquire_n_fresh n (initial_state h answers))
    as (s' & Hrun & Hl & Ha & _ & _ & _ & Hnew).
  - unfold stacks_wf. cbn. apply length_replicate.
  - reflexivity.
  - cbn. lia.
  - cbn [allocated initial_state]. lia.
  - exact Hlen.
  - exact Hnz.
  - exists s'. split; [exact Hrun|]. cbn in Hl, Ha.
    split; [lia|]. split; [lia|].
    intros k p Hk Hp. apply (Hnew k p Hk Hp).
Qed.

Lemma acquire_n_from_start_witness :
  exists s',
    acquire_n 3 (initial_state zero_heap [4096; 8192; 12288; 0]) =
      (Ok (seqZ 0 (Z.of_nat 3)), s') /\
    locked s' = Z.of_nat 3 /\ allocated s' = Z.of_nat 3 /\
    forall (k : nat) (p : Z), (k < 3)%nat ->
      [4096; 8192; 12288; 0] !! k = Some p ->
      stacks s' !! k = Some {| sp := p; memory := p; size := DEFAULT_LARGE_STACK |}.
Proof.
  apply (acquire_n_from_start 3 zero_heap [4096; 8192; 12288; 0]).
  - vm_compute. discriminate.
  - cbn. lia.
  - repeat constructor; discriminate.
Defined.

(** ** [vector_max]: capacity and the frontier *)

Lemma set_sp_ok (i p : Z) (st : stack) (s : state) :
  0 <= i < DEFAULT_MAX_STACKS -> stacks s !! Z.to_nat i = Some st ->
  set_sp i p s =
  (Ok tt,
   set_stacks (<[Z.to_nat i := {| sp := p; memory := memory st; size := size st |}]>
                 (stacks s)) s).
Proof.
  intros Hi Hst. unfold set_sp, stack_at, set_stack, bind.
  rewrite (in_stacks_true _ Hi), Hst. reflexivity.
Qed.

(** The constructor on a stack that is materialised and free: only the
    [sp] of that stack changes. *)
Lemma vector_max_ctor_free {T : Type} {E : Elem T} (max : Z) (s : state) (st : stack) :
  stacks_wf s -> 0 <= locked s -> locked s < allocated s ->
  allocated s <= DEFAULT_MAX_STACKS ->
  stacks s !! Z.to_nat (locked s) = Some st ->
  VectorMax.ctor (T:=T) max s =
  (Ok {| vm_base := BasicVector.ctor (sp st); vm_st := locked s;
         vm_capacity := sp st + wrap (max * sizeof T) |},
   set_stacks
     (<[Z.to_nat (locked s) :=
          {| sp := sp st + wrap (max * sizeof T); memory := memory st;
             size := size st |}]> (stacks s)) s).
Proof.
  intros Hwf H0 H1 H2 Hst.
  assert (Hi : 0 <= locked s < DEFAULT_MAX_STACKS) by lia.
  unfold VectorMax.ctor. unfold bind at 1.
  rewrite acquire_stack_unlocked by assumption.
  unfold bind at 1. unfold stack_at at 1. cbn [locked stacks set_locked].
  rewrite (in_stacks_true _ Hi), Hst.
  unfold bind at 1. rewrite (set_sp_ok _ _ st) by assumption.
  unfold bind, release_stack, get, modify, ret. cbn.
  replace (locked s + 1 - 1) with (locked s) by lia.
  rewrite (wrap_small (locked s)) by (unfold_size; lia).
  destruct s. reflexivity.
Qed.

Lemma insert_back (l : list stack) (i : nat) (st st' : stack) :
  l !! i = Some st -> <[i := st]> (<[i := st']> l) = l.
Proof.
  intros Hst. rewrite list_insert_insert_eq. apply list_insert_id. exact Hst.
Qed.

Section VectorMaxMore.
Context {T : Type} {E : Elem T} {L : ElemLaws T}.



Lemma vm_push_all_overflow (ts : list T) : forall (v : vector_max T) (s : state) (j : nat),
  vm_capacity v = end_ (vm_base v) + Z.of_nat j * sizeof T ->
  (j < length ts)%nat ->
  (vm_push_all ts v s).1 = Fatal.
Proof.
  pose proof sizeof_pos as Hp.
  induction ts as [|t ts IH]; intros v s j Hcap Hj; [cbn in Hj; lia|].
  cbn [vm_push_all]. unfold bind at 1. unfold VectorMax.push_back, assert.
  destruct j as [|j].
  - destruct (Z.ltb_spec (end_ (vm_base v)) (vm_capacity v)) as [Hlt|_]; [lia|].
    reflexivity.
  - destruct (Z.ltb_spec (end_ (vm_base v)) (vm_capacity v)) as [_|Hge]; [|nia].
    unfold bind, memcpy, modify, ret.
    apply (IH _ _ j); [cbn; lia|cbn in Hj; lia].
Qed.


(** X15: on a [vector_max] constructed with capacity [max], pushing more
    than [max] values ends the process at the failed assertion of
    [push_back]. *)
Theorem vector_max_push_beyond_capacity (max : Z) (s s1 : state)
    (v : vector_max T) (ts : list T) :
  pool_inv s -> stacks_wf s ->
  VectorMax.ctor max s = (Ok v, s1) ->
  0 <= max -> max * sizeof T < 2 ^ SIZE_WIDTH ->
  max < Z.of_nat (length ts) ->
  (vm_push_all ts v s1).1 = Fatal.
Proof.
  intros Hinv Hwf Hctor H0 Hfit Hlen. pose proof sizeof_pos as Hp.
  destruct (vector_max_ctor_ok max s s1 v Hinv Hwf Hctor)
    as (_ & He & Hcap & _).
  rewrite wrap_small in Hcap by nia.
  apply (vm_push_all_overflow ts v s1 (Z.to_nat max)); [|lia].
  rewrite He, Hcap, Z2Nat.id by lia. reflexivity.
Qed.
End VectorMaxMore.


Lemma vector_max_push_beyond_capacity_witness :
  (vm_push_all (T:=int) [1; 2; 3]
     {| vm_base := BasicVector.ctor (2 ^ 40); vm_st := 0;
        vm_capacity := 2 ^ 40 + 8 |}
     (VectorMax.ctor (T:=int) 2 (boot 1)).2).1 = Fatal.
Proof.
  apply (vector_max_push_beyond_capacity (T:=int) 2 (boot 1)
           (VectorMax.ctor (T:=int) 2 (boot 1)).2
           {| vm_base := BasicVector.ctor (2 ^ 40); vm_st := 0;
              vm_capacity := 2 ^ 40 + 8 |} [1; 2; 3]).
  - unfold pool_inv. vm_compute. repeat split; discriminate.
  - vm_compute. reflexivity.
  - vm_compute. reflexivity.
  - lia.
  - vm_compute. reflexivity.
  - cbn. lia.
Defined.

Ltac solve_pool_inv := unfold pool_inv; vm_compute; repeat split; discriminate.

(** X16: on a stack that is materialised and free, constructing a
    [vector_max] and destroying it leaves the whole state as it was. *)
Theorem vector_max_ctor_dtor_roundtrip {T : Type} {E : Elem T} (max : Z) (s : state) :
  stacks_wf s -> 0 <= locked s -> locked s < allocated s ->
  allocated s <= DEFAULT_MAX_STACKS ->
  (v <- VectorMax.ctor (T:=T) max ;; VectorMax.dtor v) s = (Ok tt, s).
Proof.
  intros Hwf H0 H1 H2.
  assert (Hi : 0 <= locked s < DEFAULT_MAX_STACKS) by lia.
  destruct (stacks_wf_lookup s (locked s) Hwf Hi) as [st Hst].
  assert (Hlen : (Z.to_nat (locked s) < length (stacks s))%nat)
    by (eapply lookup_lt_Some; exact Hst).
  unfold bind. rewrite (vector_max_ctor_free max s st) by assumption.
  unfold VectorMax.dtor. cbn [vm_st vm_base begin BasicVector.ctor].
  erewrite set_sp_ok;
    [|exact Hi|cbn [stacks set_stacks]; apply list_lookup_insert_eq; exact Hlen].
  cbn [stacks set_stacks memory size].
  rewrite insert_back by (destruct st; exact Hst).
  destruct s. reflexivity.
Qed.

Lemma vector_max_ctor_dtor_roundtrip_witness :
  (v <- VectorMax.ctor (T:=int) 5 ;; VectorMax.dtor v)
    (release_stack (holding 1)).2 = (Ok tt, (release_stack (holding 1)).2).
Proof.
  apply (vector_max_ctor_dtor_roundtrip (T:=int) 5 (release_stack (holding 1)).2).
  - vm_compute. reflexivity.
  - vm_compute. discriminate.
  - vm_compute. reflexivity.
  - vm_compute. discriminate.
Defined.

(** X17: two [vector_max] constructed one after the other and destroyed
    in reverse order leave the whole state as it was. *)
Theorem vector_max_lifo {T1 T2 : Type} {E1 : Elem T1} {E2 : Elem T2}
    (max1 max2 : Z) (s : state) :
  stacks_wf s -> 0 <= locked s -> locked s < allocated s ->
  allocated s <= DEFAULT_MAX_STACKS ->
  (v1 <- VectorMax.ctor (T:=T1) max1 ;;
   v2 <- VectorMax.ctor (T:=T2) max2 ;;
   VectorMax.dtor v2 ;;;
   VectorMax.dtor v1) s = (Ok tt, s).
Proof.
  intros Hwf H0 H1 H2.
  assert (Hi : 0 <= locked s < DEFAULT_MAX_STACKS) by lia.
  destruct (stacks_wf_lookup s (locked s) Hwf Hi) as [st Hst].
  assert (Hlen : (Z.to_nat (locked s) < length (stacks s))%nat)
    by (eapply lookup_lt_Some; exact Hst).
  unfold bind at 1. rewrite (vector_max_ctor_free max1 s st) by assumption.
  unfold bind at 1.
  erewrite (vector_max_ctor_free (T:=T2) max2);
    [|unfold stacks_wf; cbn; rewrite length_insert; exact Hwf
     |cbn; lia|cbn; lia|cbn; lia
     |cbn [stacks set_stacks locked]; apply list_lookup_insert_eq; exact Hlen].
  unfold bind at 1. unfold VectorMax.dtor.
  cbn [vm_st vm_base begin BasicVector.ctor locked stacks set_stacks sp memory size].
  erewrite set_sp_ok;
    [|exact Hi|cbn [stacks set_stacks]; apply list_lookup_insert_eq;
               rewrite length_insert; exact Hlen].
  cbn [stacks set_stacks memory size].
  erewrite set_sp_ok;
    [|exact Hi|cbn [stacks set_stacks]; apply list_lookup_insert_eq;
               rewrite !length_insert; exact Hlen].
  cbn [stacks set_stacks memory size].
  rewrite !list_insert_insert_eq.
  rewrite list_insert_id by (destruct st; exact Hst).
  destruct s. reflexivity.
Qed.

Lemma vector_max_lifo_witness :
  (v1 <- VectorMax.ctor (T:=int) 5 ;;
   v2 <- VectorMax.ctor (T:=byte) 100 ;;
   VectorMax.dtor v2 ;;;
   VectorMax.dtor v1) (release_stack (holding 1)).2
  = (Ok tt, (release_stack (holding 1)).2).
Proof.
  apply (vector_max_lifo (T1:=int) (T2:=byte) 5 100 (release_stack (holding 1)).2).
  - vm_compute. reflexivity.
  - vm_compute. discriminate.
  - vm_compute. reflexivity.
  - vm_compute. discriminate.
Defined.

(** X18: two [vector_max] destroyed in the order of their construction
    leave the frontier of their stack where the second began, at the
    first's [capacity]: the range of the first is not given back. *)
Theorem vector_max_wrong_order {T1 T2 : Type} {E1 : Elem T1} {E2 : Elem T2}
    (max1 max2 : Z) (s : state) (st : stack) :
  stacks_wf s -> 0 <= locked s -> locked s < allocated s ->
  allocated s <= DEFAULT_MAX_STACKS ->
  stacks s !! Z.to_nat (locked s) = Some st ->
  exists s',
    (v1 <- VectorMax.ctor (T:=T1) max1 ;;
     v2 <- VectorMax.ctor (T:=T2) max2 ;;
     VectorMax.dtor v1 ;;;
     VectorMax.dtor v2) s = (Ok tt, s') /\
    stacks s' !! Z.to_nat (locked s) =
      Some {| sp := sp st + wrap (max1 * sizeof T1); memory := memory st;
              size := size st |} /\
    locked s' = locked s /\ allocated s' = allocated s.
Proof.
  intros Hwf H0 H1 H2 Hst.
  assert (Hi : 0 <= locked s < DEFAULT_MAX_STACKS) by lia.
  assert (Hlen : (Z.to_nat (locked s) < length (stacks s))%nat)
    by (eapply lookup_lt_Some; exact Hst).
  eexists. split.
  - unfold bind at 1. rewrite (vector_max_ctor_free max1 s st) by assumption.
    unfold bind at 1.
    erewrite (vector_max_ctor_free (T:=T2) max2);
      [|unfold stacks_wf; cbn; rewrite length_insert; exact Hwf
       |cbn; lia|cbn; lia|cbn; lia
       |cbn [stacks set_stacks locked]; apply list_lookup_insert_eq; exact Hlen].
    unfold bind at 1. unfold VectorMax.dtor.
    cbn [vm_st vm_base begin BasicVector.ctor locked stacks set_stacks sp memory size].
    erewrite set_sp_ok;
      [|exact Hi|cbn [stacks set_stacks]; apply list_lookup_insert_eq;
                 rewrite length_insert; exact Hlen].
    cbn [stacks set_stacks memory size].
    erewrite set_sp_ok;
      [|exact Hi|cbn [stacks set_stacks]; apply list_lookup_insert_eq;
                 rewrite !length_insert; exact Hlen].
    reflexivity.
  - cbn [stacks set_stacks locked allocated memory size].
    split; [|split; reflexivity].
    apply list_lookup_insert_eq. rewrite !length_insert. exact Hlen.
Qed.

Lemma vector_max_wrong_order_witness :
  exists s',
    (v1 <- VectorMax.ctor (T:=int) 5 ;;
     v2 <- VectorMax.ctor (T:=byte) 100 ;;
     VectorMax.dtor v1 ;;;
     VectorMax.dtor v2) (release_stack (holding 1)).2 = (Ok tt, s') /\
    stacks s' !! Z.to_nat (locked (release_stack (holding 1)).2) =
      Some {| sp := sp {| sp := 2 ^ 40; memory := 2 ^ 40; size := 2 ^ 36 |}
                    + wrap (5 * sizeof int);
              memory := 2 ^ 40; size := 2 ^ 36 |} /\
    locked s' = locked (release_stack (holding 1)).2 /\
    allocated s' = allocated (release_stack (holding 1)).2.
Proof.
  apply (vector_max_wrong_order (T1:=int) (T2:=byte) 5 100
           (release_stack (holding 1)).2
           {| sp := 2 ^ 40; memory := 2 ^ 40; size := 2 ^ 36 |}).
  - vm_compute. reflexivity.
  - vm_compute. discriminate.
  - vm_compute. reflexivity.
  - vm_compute. discriminate.
  - vm_compute. reflexivity.
Defined.

(** ** [vector]: which stack it gets *)

Lemma stack_at_ok (i : Z) (st : stack) (s : state) :
  0 <= i < DEFAULT_MAX_STACKS -> stacks s !! Z.to_nat i = Some st ->
  stack_at i s = (Ok st, s).
Proof.
  intros Hi Hst. unfold stack_at. rewrite (in_stacks_true _ Hi), Hst. reflexivity.
Qed.

(** What a returning [vector] constructor has done. *)
Lemma vector_ctor_ok {T : Type} (s s1 : state) (i : Z) (v : basic_vector T) :
  pool_inv s -> stacks_wf s ->
  Vector.ctor s = (Ok (i, v), s1) ->
  i = locked s /\ locked s1 = locked s + 1 /\ pool_inv s1 /\ stacks_wf s1 /\
  end_ v = begin v /\
  exists st, stacks s1 !! Z.to_nat i = Some st /\ sp st = begin v.
Proof.
  intros Hinv Hwf H. unfold Vector.ctor, bind in H.
  destruct (acquire_stack s) as [[j| |] sa] eqn:Ha; try discriminate.
  pose proof (acquire_stack_wf s Hwf) as Hwfa.
  pose proof (acquire_stack_inv s Hinv) as Hinva.
  rewrite Ha in Hwfa, Hinva. cbn in Hwfa, Hinva.
  destruct (acquire_stack_ok s j sa Hinv Ha) as (-> & Hi & Hl & _).
  destruct (stacks_wf_lookup sa (locked s) Hwfa Hi) as [st Hst].
  rewrite (stack_at_ok _ st) in H by assumption.
  unfold ret in H. injection H as <- <- <-.
  repeat split; try assumption; try apply Hinva.
  exists st. split; [exact Hst|reflexivity].
Qed.



(** X20: a [vector] constructed after a [vector_max] gets the same
    stack and begins where the capacity of the [vector_max] ends. *)
Theorem vector_after_vector_max {T1 T2 : Type} {E1 : Elem T1}
    (max : Z) (s s1 : state) (vm : vector_max T1) :
  pool_inv s -> stacks_wf s ->
  VectorMax.ctor max s = (Ok vm, s1) ->
  exists s2,
    Vector.ctor (T:=T2) s1 = (Ok (vm_st vm, BasicVector.ctor (vm_capacity vm)), s2).
Proof.
  intros Hinv Hwf H.
  destruct (vector_max_ctor_ok max s s1 vm Hinv Hwf H)
    as (Hst & _ & _ & Hl & Hl1 & Ha1 & Hwf1 & st & Hlook & Hsp).
  rewrite <- Hl in Hlook.
  unfold Vector.ctor, bind.
  rewrite acquire_stack_unlocked by (assumption || lia).
  eexists. rewrite (stack_at_ok (locked s1) st) by (cbn; assumption || lia).
  unfold ret. rewrite Hsp, Hst, Hl. reflexivity.
Qed.

Lemma vector_after_vector_max_witness :
  exists s2,
    Vector.ctor (T:=byte) (VectorMax.ctor (T:=int) 5 (boot 1)).2 =
    (Ok (0, BasicVector.ctor (2 ^ 40 + 20)), s2).
Proof.
  apply (vector_after_vector_max (T1:=int) (T2:=byte) 5 (boot 1)
           (VectorMax.ctor (T:=int) 5 (boot 1)).2
           {| vm_base := BasicVector.ctor (2 ^ 40); vm_st := 0;
              vm_capacity := 2 ^ 40 + 20 |}).
  - solve_pool_inv.
  - vm_compute. reflexivity.
  - vm_compute. reflexivity.
Defined.

(** The whole life of a [vector] on a stack that is materialised and
    free changes memory only. *)
Lemma lifecycle_free {T : Type} {E : Elem T} (ts : list T) (s : state) (st : stack) :
  stacks_wf s -> 0 <= locked s -> locked s < allocated s ->
  allocated s <= DEFAULT_MAX_STACKS ->
  stacks s !! Z.to_nat (locked s) = Some st ->
  exists h,
    lifecycle ts s =
    (Ok (locked s,
         BasicVector.set_end (sp st + Z.of_nat (length ts) * sizeof T)
           (BasicVector.ctor (sp st))),
     set_mem h s).
Proof.
  intros Hwf H0 H1 H2 Hst.
  assert (Hi : 0 <= locked s < DEFAULT_MAX_STACKS) by lia.
  destruct (push_all_ok ts (BasicVector.ctor (sp st)) (set_locked (locked s + 1) s))
    as [h Hh].
  exists h. unfold lifecycle, Vector.ctor, Vector.dtor, bind.
  rewrite acquire_stack_unlocked by assumption.
  rewrite (stack_at_ok (locked s) st) by (cbn; assumption).
  unfold ret at 1. cbn [fst snd]. rewrite Hh.
  rewrite release_stack_ok by (cbn; unfold_size; lia).
  unfold ret. cbn. replace (locked s + 1 - 1) with (locked s) by lia.
  destruct s. reflexivity.
Qed.

(** X21: on a stack that is materialised and free, [n] vectors each
    constructed, filled with the same number of values and destroyed
    before the next all get the same slot and the same addresses; the
    counters, the stacks and the pending answers of the operating system
    are as before. *)
Theorem lifecycles_same_slot {T : Type} {E : Elem T} (n : nat) (ts : list T)
    (s : state) (st : stack) :
  stacks_wf s -> 0 <= locked s -> locked s < allocated s ->
  allocated s <= DEFAULT_MAX_STACKS ->
  stacks s !! Z.to_nat (locked s) = Some st ->
  exists s',
    lifecycles n ts s =
    (Ok (replicate n
           (locked s,
            BasicVector.set_end (sp st + Z.of_nat (length ts) * sizeof T)
              (BasicVector.ctor (sp st)))), s') /\
    same_pool s s'.
Proof.
  revert s. induction n as [|n IH]; intros s Hwf H0 H1 H2 Hst.
  - exists s. split; [reflexivity|]. repeat split.
  - destruct (lifecycle_free ts s st Hwf H0 H1 H2 Hst) as [h Hh].
    destruct (IH (set_mem h s)) as (s' & Hrun & Hl & Ha & Hs & Ho);
      try assumption.
    exists s'. cbn [lifecycles replicate]. unfold bind at 1. rewrite Hh.
    unfold bind at 1. rewrite Hrun. unfold ret. split; [reflexivity|].
    repeat split; assumption.
Qed.

Lemma lifecycles_same_slot_witness :
  exists s',
    lifecycles (T:=int) 3 [7; 8] (release_stack (holding 1)).2 =
    (Ok (replicate 3
           (locked (release_stack (holding 1)).2,
            BasicVector.set_end
              (sp {| sp := 2 ^ 40; memory := 2 ^ 40; size := 2 ^ 36 |}
               + Z.of_nat (length [7; 8 : int]) * sizeof int)
              (BasicVector.ctor
                 (sp {| sp := 2 ^ 40; memory := 2 ^ 40; size := 2 ^ 36 |})))), s') /\
    same_pool (release_stack (holding 1)).2 s'.
Proof.
  apply (lifecycles_same_slot (T:=int) 3 [7; 8] (release_stack (holding 1)).2
           {| sp := 2 ^ 40; memory := 2 ^ 40; size := 2 ^ 36 |}).
  - vm_compute. reflexivity.
  - vm_compute. discriminate.
  - vm_compute. reflexivity.
  - vm_compute. discriminate.
  - vm_compute. reflexivity.
Defined.

(** X22: a [vector_pool] locks two stacks, the next two slots, one for
    the elements and one for the free list, both empty at the frontiers
    of these stacks; its destructor gives both back. *)
Theorem vector_pool_locks_two {T : Type} {E : Elem T} (s s1 : state)
    (v : vector_pool T) :
  pool_inv s -> stacks_wf s ->
  VectorPool.ctor s = (Ok v, s1) ->
  locked s1 = locked s + 2 /\
  (exists st, stacks s1 !! Z.to_nat (locked s) = Some st /\
     begin (vp_base v) = sp st /\ end_ (vp_base v) = sp st) /\
  (exists st, stacks s1 !! Z.to_nat (locked s + 1) = Some st /\
     begin (free_list v) = sp st /\ end_ (free_list v) = sp st) /\
  exists s2, VectorPool.dtor v s1 = (Ok tt, s2) /\ locked s2 = locked s.
Proof.
  intros Hinv Hwf H. unfold VectorPool.ctor in H. unfold bind at 1 in H.
  destruct (Vector.ctor (T:=T) s) as [[[i vb]| |] sa] eqn:H1; try discriminate.
  unfold bind at 1 in H.
  destruct (Vector.ctor (T:=ptr) sa) as [[[j vf]| |] sb] eqn:H2; try discriminate.
  unfold ret in H. injection H as <- <-. cbn [vp_base free_list fst snd].
  destruct (vector_ctor_ok s sa i vb Hinv Hwf H1)
    as (-> & Hl1 & Hinv1 & Hwf1 & He1 & st1 & Hst1 & Hsp1).
  destruct (vector_ctor_ok sa sb j vf Hinv1 Hwf1 H2)
    as (-> & Hl2 & Hinv2 & Hwf2 & He2 & st2 & Hst2 & Hsp2).
  destruct Hinv as (H0 & _). destruct Hinv2 as (_ & Hb1 & Hb2).
  split; [lia|]. split; [|split].
  - exists st1. split; [|split; congruence].
    pose proof (acquire_stack_untouched sa (locked s)) as Hf.
    unfold Vector.ctor, bind in H2.
    destruct (acquire_stack sa) as [[k| |] sc] eqn:Ha; try discriminate.
    destruct (stack_at k sc) as [[x| |] sd] eqn:Hs; try discriminate.
    unfold stack_at in Hs. unfold ret in H2. split_cases.
    cbn in Hf. rewrite Hf by (exact Hinv1 || (destruct Hinv1; lia)). exact Hst1.
  - exists st2. rewrite <- Hl1. split; [exact Hst2|split; congruence].
  - unfold VectorPool.dtor, bind.
    rewrite release_stack_ok by (unfold_size; lia).
    rewrite release_stack_ok by (cbn; unfold_size; lia).
    eexists. split; [reflexivity|]. cbn. lia.
Qed.

Lemma vector_pool_locks_two_witness :
  locked fresh_pool_state = locked (boot 2) + 2 /\
  (exists st, stacks fresh_pool_state !! Z.to_nat (locked (boot 2)) = Some st /\
     begin (vp_base fresh_pool) = sp st /\ end_ (vp_base fresh_pool) = sp st) /\
  (exists st, stacks fresh_pool_state !! Z.to_nat (locked (boot 2) + 1) = Some st /\
     begin (free_list fresh_pool) = sp st /\ end_ (free_list fresh_pool) = sp st) /\
  exists s2,
    VectorPool.dtor fresh_pool fresh_pool_state = (Ok tt, s2) /\
    locked s2 = locked (boot 2).
Proof.
  apply (vector_pool_locks_two (T:=MyObject) (boot 2) fresh_pool_state fresh_pool).
  - solve_pool_inv.
  - vm_compute. reflexivity.
  - vm_compute. reflexivity.
Defined.

(** ** [vector_pool]: the free list *)

Section VectorPoolMore.
Context {T : Type} {E : Elem T} {L : ElemLaws T}.

(** With a non-empty free list, [alloc] takes the reference recorded
    last, writes over the element there and shortens the free list. *)
Lemma alloc_reuse_top (t : T) (v : vector_pool T) (s : state) :
  0 < end_ (free_list v) - begin (free_list v) <= 2 ^ SIZE_WIDTH - 8 ->
  VectorPool.alloc t v s =
  (Ok (load ptr (E := ptr_elem) (end_ (free_list v) - 8) s,
       {| vp_base := vp_base v;
          free_list := BasicVector.set_end (end_ (free_list v) - 8) (free_list v) |}),
   set_mem (memcpy_heap (load ptr (E := ptr_elem) (end_ (free_list v) - 8) s)
              (to_bytes t) (mem s)) s).
Proof.
  intros Hf.
  unfold VectorPool.alloc, BasicVector.size.
  assert (Hw : wrap (begin (free_list v) - end_ (free_list v)) =
               2 ^ SIZE_WIDTH - (end_ (free_list v) - begin (free_list v))).
  { unfold wrap. symmetry. apply Z.mod_unique with (q := -1); unfold_size; lia. }
  rewrite Hw.
  assert (Hnz : (2 ^ SIZE_WIDTH - (end_ (free_list v) - begin (free_list v)))
                / @sizeof ptr ptr_elem <> 0).
  { intros Hz. apply Z.div_small_iff in Hz; [|cbn; lia].
    cbn in Hz. unfold_size. lia. }
  destruct (Z.eqb_spec ((2 ^ SIZE_WIDTH - (end_ (free_list v) - begin (free_list v)))
                        / @sizeof ptr ptr_elem) 0) as [Hz|_]; [contradiction|].
  cbn [negb]. unfold BasicVector.pop, assert, bind at 1.
  destruct (Z.ltb_spec (begin (free_list v)) (end_ (free_list v))) as [_|Hge]; [|lia].
  unfold bind, ret, get, memcpy, modify. cbn [fst snd end_ BasicVector.set_end].
  reflexivity.
Qed.

(** X23: with an empty free list, [alloc] appends: the elements already
    held are kept, the new value follows them, and the reference returned
    is the one to the new last element. *)
Theorem alloc_appends (t : T) (v : vector_pool T) (xs : list T) (s : state) :
  representable t ->
  represents s (vp_base v) xs ->
  end_ (free_list v) = begin (free_list v) ->
  exists r v' s',
    VectorPool.alloc t v s = (Ok (r, v'), s') /\
    r = begin (vp_base v) + Z.of_nat (length xs) * sizeof T /\
    represents s' (vp_base v') (xs ++ [t]) /\
    free_list v' = free_list v.
Proof.
  intros Ht Hrep Hf. pose proof sizeof_pos as Hp.
  pose proof (represents_length _ _ _ Hrep) as Hspan.
  eexists _, _, _. split; [apply alloc_fresh; [exact Hf|nia]|].
  cbn [vp_base free_list]. split; [lia|]. split; [|reflexivity].
  apply represents_push_back; assumption.
Qed.

(** X24: with a reference to the element at index [i] on top of the free
    list, [alloc] returns that reference, replaces element [i] by the new
    value and leaves all other elements and their number as they are. *)
Theorem alloc_overwrites_slot (t : T) (v : vector_pool T) (xs : list T)
    (i : nat) (s : state) :
  representable t ->
  represents s (vp_base v) xs ->
  (i < length xs)%nat ->
  0 < end_ (free_list v) - begin (free_list v) <= 2 ^ SIZE_WIDTH - 8 ->
  load ptr (E := ptr_elem) (end_ (free_list v) - 8) s =
    begin (vp_base v) + Z.of_nat i * sizeof T ->
  exists v' s',
    VectorPool.alloc t v s =
      (Ok (begin (vp_base v) + Z.of_nat i * sizeof T, v'), s') /\
    represents s' (vp_base v') (<[i := t]> xs) /\
    end_ (free_list v') = end_ (free_list v) - 8.
Proof.
  intros Ht [He Hx] Hi Hf Hr. pose proof sizeof_pos as Hp.
  eexists _, _. rewrite alloc_reuse_top by exact Hf. rewrite Hr.
  split; [reflexivity|]. cbn [vp_base free_list end_ BasicVector.set_end].
  split; [|reflexivity]. split.
  - rewrite length_insert. exact He.
  - intros j x Hj. destruct (Nat.eq_dec j i) as [->|Hne].
    + rewrite list_lookup_insert_eq in Hj by exact Hi. injection Hj as <-.
      apply load_memcpy_same. exact Ht.
    + rewrite list_lookup_insert_ne in Hj by congruence.
      rewrite load_memcpy_other; [apply Hx; exact Hj|].
      rewrite (to_bytes_length t).
      destruct (Nat.lt_ge_cases j i); [left|right]; nia.
Qed.


(** X26: [reuseable] keeps no record of what is already free: called
    twice on the same reference, it makes the next two calls of [alloc]
    return that same reference, and the element there ends up holding the
    value of the second. *)
Theorem double_reuseable_aliases (c1 c2 : T) (r : Z) (v : vector_pool T) (s : state) :
  representable c2 ->
  end_ (free_list v) = begin (free_list v) ->
  begin (vp_base v) <= r < end_ (vp_base v) ->
  0 <= r < 2 ^ SIZE_WIDTH ->
  r + sizeof T <= begin (free_list v) \/ begin (free_list v) + 8 <= r ->
  exists v' s',
    (v1 <- VectorPool.reuseable r v ;;
     v2 <- VectorPool.reuseable r v1 ;;
     a1 <- VectorPool.alloc c1 v2 ;;
     a2 <- VectorPool.alloc c2 a1.2 ;;
     ret (a1.1, a2.1, a2.2)) s
    = (Ok (r, r, v'), s') /\
    load T r s' = c2.
Proof.
  intros Hc2 Hf Hr Hp1 Hdis. pose proof sizeof_pos as Hp.
  eexists _, _.
  unfold bind at 1. rewrite reuseable_ok by exact Hr.
  unfold bind at 1. rewrite reuseable_ok by exact Hr.
  cbn [vp_base free_list begin end_ BasicVector.set_end].
  unfold bind at 1. rewrite alloc_reuse_top by (cbn; unfold_size; lia).
  cbn [fst snd vp_base free_list begin end_ BasicVector.set_end].
  replace (end_ (free_list v) + 8 + 8 - 8) with (end_ (free_list v) + 8) by lia.
  rewrite (load_memcpy_same (L := ptr_laws)) by exact Hp1.
  unfold bind at 1. rewrite alloc_reuse_top by (cbn; unfold_size; lia).
  cbn [fst snd vp_base free_list begin end_ BasicVector.set_end].
  replace (end_ (free_list v) + 8 - 8) with (end_ (free_list v)) by lia.
  rewrite (load_memcpy_other (L := ptr_laws))
    by (rewrite (to_bytes_length c1); cbn; lia).
  rewrite (load_memcpy_other (L := ptr_laws)) by (cbn; lia).
  rewrite (load_memcpy_same (L := ptr_laws)) by exact Hp1.
  unfold ret. cbn [fst snd]. split; [reflexivity|].
  apply load_memcpy_same. exact Hc2.
Qed.
End VectorPoolMore.

Example pool3_run :
  (r1 <- VectorPool.alloc {| a := 1 |} fresh_pool ;;
   r2 <- VectorPool.alloc {| a := 2 |} r1.2 ;;
   r3 <- VectorPool.alloc {| a := 3 |} r2.2 ;;
   VectorPool.reuseable r2.1 r3.2) fresh_pool_state
  = (Ok pool3_freed, pool3_freed_state).
Proof. vm_compute. reflexivity. Qed.

Lemma alloc_appends_witness :
  exists r v' s',
    VectorPool.alloc {| a := 4 |} pool3 pool3_state = (Ok (r, v'), s') /\
    r = begin (vp_base pool3)
        + Z.of_nat (length [{| a := 1 |}; {| a := 2 |}; {| a := 3 |}])
          * sizeof MyObject /\
    represents s' (vp_base v')
      ([{| a := 1 |}; {| a := 2 |}; {| a := 3 |}] ++ [{| a := 4 |}]) /\
    free_list v' = free_list pool3.
Proof.
  apply (alloc_appends {| a := 4 |} pool3
           [{| a := 1 |}; {| a := 2 |}; {| a := 3 |}] pool3_state).
  - cbn. lia.
  - solve_represents.
  - reflexivity.
Defined.

Lemma alloc_overwrites_slot_witness :
  exists v' s',
    VectorPool.alloc {| a := 4 |} pool3_freed pool3_freed_state =
      (Ok (begin (vp_base pool3_freed) + Z.of_nat 1 * sizeof MyObject, v'), s') /\
    represents s' (vp_base v')
      (<[1%nat := {| a := 4 |}]> [{| a := 1 |}; {| a := 2 |}; {| a := 3 |}]) /\
    end_ (free_list v') = end_ (free_list pool3_freed) - 8.
Proof.
  apply (alloc_overwrites_slot {| a := 4 |} pool3_freed
           [{| a := 1 |}; {| a := 2 |}; {| a := 3 |}] 1 pool3_freed_state).
  - cbn. lia.
  - solve_represents.
  - cbn. lia.
  - vm_compute. split; [reflexivity|discriminate].
  - vm_compute. reflexivity.
Defined.


Lemma double_reuseable_aliases_witness :
  exists v' s',
    (v1 <- VectorPool.reuseable (2 ^ 40 + 4) pool3 ;;
     v2 <- VectorPool.reuseable (2 ^ 40 + 4) v1 ;;
     a1 <- VectorPool.alloc {| a := 5 |} v2 ;;
     a2 <- VectorPool.alloc {| a := 6 |} a1.2 ;;
     ret (a1.1, a2.1, a2.2)) pool3_state
    = (Ok (2 ^ 40 + 4, 2 ^ 40 + 4, v'), s') /\
    load MyObject (2 ^ 40 + 4) s' = {| a := 6 |}.
Proof.
  apply (double_reuseable_aliases {| a := 5 |} {| a := 6 |} (2 ^ 40 + 4)
           pool3 pool3_state).
  - cbn. lia.
  - reflexivity.
  - vm_compute. split; [discriminate|reflexivity].
  - vm_compute. split; [discriminate|reflexivity].
  - left. vm_compute. discriminate.
Defined.

(** ** Committing pages on first touch *)

Lemma land_wrap_r (x y : Z) :
  0 <= x < 2 ^ SIZE_WIDTH -> Z.land x (wrap y) = Z.land x y.
Proof.
  intros Hx. unfold wrap.
  rewrite <- (Z.land_ones y SIZE_WIDTH) by (unfold SIZE_WIDTH; lia).
  rewrite (Z.land_comm y), Z.land_assoc.
  rewrite (Z.land_ones x SIZE_WIDTH) by (unfold SIZE_WIDTH; lia).
  rewrite Z.mod_small by exact Hx. reflexivity.
Qed.

Lemma page_start_eq (k hit : Z) :
  0 <= k < SIZE_WIDTH -> 0 <= hit < 2 ^ SIZE_WIDTH ->
  page_start (2 ^ k) hit = 2 ^ k * (hit / 2 ^ k).
Proof.
  intros Hk Hhit. unfold page_start. cbn [USE_GUARD_PAGES].
  assert (Hpow : 0 < 2 ^ k < 2 ^ SIZE_WIDTH).
  { split; [apply Z.pow_pos_nonneg; lia|apply Z.pow_lt_mono_r; lia]. }
  rewrite (wrap_small hit) by exact Hhit.
  rewrite (wrap_small (2 ^ k - 1)) by lia.
  rewrite land_wrap_r by exact Hhit.
  replace (2 ^ k - 1) with (Z.ones k) by (rewrite Z.ones_equiv; lia).
  rewrite <- Z.ldiff_land, Z.ldiff_ones_r by lia.
  rewrite Z.shiftl_mul_pow2, Z.shiftr_div_pow2 by lia. lia.
Qed.

(** X27: for a page size that is a power of two, the page start the
    fault handler computes from the address of the access is a multiple
    of the page size, and the access lies in the page that starts
    there. *)
Theorem page_start_contains_hit (k hit : Z) :
  0 <= k < SIZE_WIDTH -> 0 <= hit < 2 ^ SIZE_WIDTH ->
  page_start (2 ^ k) hit mod 2 ^ k = 0 /\
  page_start (2 ^ k) hit <= hit < page_start (2 ^ k) hit + 2 ^ k.
Proof.
  intros Hk Hhit. rewrite page_start_eq by assumption.
  assert (Hpow : 0 < 2 ^ k) by (apply Z.pow_pos_nonneg; lia).
  split.
  - rewrite Z.mul_comm. apply Z.mod_mul. lia.
  - pose proof (Z.div_mod hit (2 ^ k)) as Hd.
    pose proof (Z.mod_pos_bound hit (2 ^ k) Hpow). lia.
Qed.

Lemma page_start_contains_hit_witness :
  page_start (2 ^ 12) 1234567 mod 2 ^ 12 = 0 /\
  page_start (2 ^ 12) 1234567 <= 1234567 < page_start (2 ^ 12) 1234567 + 2 ^ 12.
Proof.
  apply (page_start_contains_hit 12 1234567); vm_compute;
    split; (discriminate || reflexivity).
Defined.

(** X28: the fault handler lets execution continue exactly when the
    exception is an access violation and the operating system commits the
    256 pages that start with the page of the access; for any other
    exception, or when the commit is refused, the search for a handler
    goes on. *)
Theorem guard_filter_disposition (guard_violation access_violation : Z)
    (virtual_alloc : Z -> Z -> bool) (k code hit : Z) :
  0 <= k -> 2 ^ k * COMMIT_PAGES_AT_ONCE < 2 ^ SIZE_WIDTH ->
  0 <= hit < 2 ^ SIZE_WIDTH ->
  (guard_page_exception_filter guard_violation access_violation (2 ^ k)
     virtual_alloc code hit = EXCEPTION_CONTINUE_EXECUTION <->
   code = access_violation /\
   virtual_alloc (2 ^ k * (hit / 2 ^ k)) (2 ^ k * 256) = true).
Proof.
  intros Hk Hfit Hhit.
  assert (Hpow : 0 < 2 ^ k) by (apply Z.pow_pos_nonneg; lia).
  assert (Hk' : 0 <= k < SIZE_WIDTH).
  { split; [exact Hk|]. apply (Z.pow_lt_mono_r_iff 2); unfold SIZE_WIDTH; try lia.
    unfold COMMIT_PAGES_AT_ONCE, SIZE_WIDTH in Hfit. lia. }
  unfold guard_page_exception_filter, commit_and_guard. cbn [USE_GUARD_PAGES negb orb].
  rewrite page_start_eq by assumption.
  unfold page_increment. rewrite wrap_small by (unfold COMMIT_PAGES_AT_ONCE in *; lia).
  unfold COMMIT_PAGES_AT_ONCE. rewrite andb_true_r.
  destruct (Z.eqb_spec code access_violation) as [He|Hne]; cbn [negb].
  - destruct (virtual_alloc (2 ^ k * (hit / 2 ^ k)) (2 ^ k * 256)).
    + split; [intros _; split; [exact He|reflexivity]|reflexivity].
    + split; [discriminate|intros [_ Hc]; discriminate].
  - split; [discriminate|intros [Hc _]; contradiction].
Qed.

Lemma guard_filter_disposition_witness :
  guard_page_exception_filter 2147483649 3221225477 (2 ^ 12)
    (fun a n => (2 ^ 40 <=? a) && (a + n <=? 2 ^ 40 + 2 ^ 36))
    3221225477 (2 ^ 40 + 5000) = EXCEPTION_CONTINUE_EXECUTION <->
  3221225477 = 3221225477 /\
  (fun a n => (2 ^ 40 <=? a) && (a + n <=? 2 ^ 40 + 2 ^ 36))
    (2 ^ 12 * ((2 ^ 40 + 5000) / 2 ^ 12)) (2 ^ 12 * 256) = true.
Proof.
  apply (guard_filter_disposition 2147483649 3221225477
           (fun a n => (2 ^ 40 <=? a) && (a + n <=? 2 ^ 40 + 2 ^ 36))
           12 3221225477 (2 ^ 40 + 5000)).
  - lia.
  - vm_compute. reflexivity.
  - vm_compute. split; [discriminate|reflexivity].
Defined.

(** ** The loops of the test program *)

Lemma int_cast_small (z : Z) : - 2 ^ 31 <= z < 2 ^ 31 -> int_cast z = z.
Proof.
  intros Hz. unfold int_cast.
  destruct (Z.lt_ge_cases z 0) as [Hneg|Hpos].
  - replace (z mod 2 ^ 32) with (z + 2 ^ 32)
      by (apply Z.mod_unique with (q := -1); lia).
    destruct (Z.ltb_spec (z + 2 ^ 32) (2 ^ 31)); lia.
  - rewrite Z.mod_small by lia.
    destruct (Z.ltb_spec z (2 ^ 31)); lia.
Qed.

Lemma push_loop_push_all (n : nat) : forall (i : Z) (v : basic_vector int) (s : state),
  - 2 ^ 31 <= i -> i + Z.of_nat n < 2 ^ 31 ->
  push_loop n i v s = push_all (T:=int) (seqZ i (Z.of_nat n)) v s.
Proof.
  induction n as [|n IH]; intros i v s Hi Hn; [reflexivity|].
  rewrite (seqZ_cons i) by lia. cbn [push_loop push_all].
  unfold BasicVector.push_back, memcpy, modify. unfold bind, ret. cbv beta iota.
  rewrite int_cast_small by lia.
  rewrite IH by lia. do 2 f_equal; lia.
Qed.

Lemma access_loop_sum (v : basic_vector int) (n : Z) (s : state) :
  represents s v (seqZ 0 n) -> 0 <= n < 2 ^ 31 ->
  forall (k : nat) (i : nat) (sum : Z),
    Z.of_nat i + Z.of_nat k = n ->
    - 2 ^ 31 <= sum ->
    2 * sum + Z.of_nat k * (2 * Z.of_nat i + Z.of_nat k - 1) < 2 ^ 32 ->
    exists r,
      access_loop k (Z.of_nat i) v sum s = (Ok r, s) /\
      2 * (r - sum) = Z.of_nat k * (2 * Z.of_nat i + Z.of_nat k - 1).
Proof.
  intros Hrep Hn.
  assert (Hfit : n * 4 < 2 ^ SIZE_WIDTH) by (unfold SIZE_WIDTH; lia).
  induction k as [|k IH]; intros i sum Hik Hlo Hhi.
  - exists sum. split; [reflexivity|lia].
  - assert (Hi : seqZ 0 n !! i = Some (Z.of_nat i)).
    { rewrite lookup_seqZ_lt by lia. reflexivity. }
    destruct (represents_index v (seqZ 0 n) s i (Z.of_nat i) Hrep) as [Hidx Hload];
      [rewrite length_seqZ, Z2Nat.id by lia; exact Hfit|exact Hi|].
    destruct (IH (S i) (sum + Z.of_nat i)) as (r & Hrun & Hr); [lia|lia|nia|].
    exists r. cbn [access_loop].
    rewrite (wrap_small (Z.of_nat i)) by (unfold SIZE_WIDTH; lia).
    unfold bind at 1. rewrite Hidx.
    unfold bind, get. rewrite Hload.
    rewrite (int_cast_small (Z.of_nat i + 1)) by lia.
    rewrite (int_cast_small (sum + Z.of_nat i)) by nia.
    replace (Z.of_nat i + 1) with (Z.of_nat (S i)) by lia.
    rewrite Hrun. split; [reflexivity|]. lia.
Qed.

Lemma pop_loop_all (k : nat) : forall (v : basic_vector int) (s : state),
  end_ v = begin v + Z.of_nat k * 4 ->
  pop_loop k v s = (Ok (BasicVector.set_end (begin v) v), s).
Proof.
  induction k as [|k IH]; intros v s He.
  - cbn. unfold ret. destruct v as [e b]. cbn in *.
    unfold BasicVector.set_end. cbn. do 3 f_equal. lia.
  - cbn [pop_loop]. unfold bind, BasicVector.pop_back, assert, bind.
    destruct (Z.ltb_spec (begin v) (end_ v)) as [_|Hge]; [|lia].
    unfold ret. rewrite IH by (cbn; lia). reflexivity.
Qed.

Lemma product_of_neighbours_even (n : Z) : n * (n - 1) = 2 * (n * (n - 1) / 2).
Proof.
  assert (He : Z.even (n * (n - 1)) = true).
  { rewrite Z.even_mul. replace (n - 1) with (Z.pred n) by lia.
    rewrite Z.even_pred. apply Z.orb_even_odd. }
  apply Z.even_spec in He as [m Hm]. rewrite Hm.
  rewrite (Z.mul_comm 2 m), Z.div_mul by lia. lia.
Qed.

(** X29: the lambda [push_access_pop] of the test program, on an empty
    [vector<int>], for a non-negative [int] count [n] of elements and an
    [int sum] that [0 + 1 + ... + (n - 1)] does not take beyond the largest
    [int], adds that total to [sum] (the [size] it adds last is 0) and
    leaves the vector empty as it found it. *)
Theorem push_access_pop_sum (n sum : Z) (v : basic_vector int) (s : state) :
  end_ v = begin v -> 0 <= n < 2 ^ 31 ->
  - 2 ^ 31 <= sum -> sum + n * (n - 1) / 2 < 2 ^ 31 ->
  exists s',
    push_access_pop n sum v s = (Ok (sum + n * (n - 1) / 2, v), s').
Proof.
  intros He Hn Hlo Hhi.
  pose proof (product_of_neighbours_even n) as Heven.
  assert (Hfit : n * 4 < 2 ^ SIZE_WIDTH) by (unfold SIZE_WIDTH; lia).
  unfold push_access_pop. unfold bind at 1.
  rewrite push_loop_push_all by lia.
  rewrite Z2Nat.id by lia.
  destruct (push_all_represents (T:=int) (seqZ 0 n) v [] s)
    as (v1 & s1 & Hrun & Hrep & Hb).
  { apply Forall_seqZ. intros x Hx. change (- 2 ^ 31 <= x < 2 ^ 31). lia. }
  { split; [cbn [length]; lia|]. intros i x Hi. discriminate. }
  cbn [app] in Hrep. rewrite Hrun. exists s1.
  destruct (access_loop_sum v1 n s1 Hrep) with (k := Z.to_nat n) (i := 0%nat) (sum := sum)
    as (r & Hacc & Hr); try lia.
  change (Z.of_nat 0) with 0 in Hacc.
  unfold bind at 1. rewrite Hacc.
  pose proof (represents_length _ _ _ Hrep) as Hspan.
  rewrite length_seqZ in Hspan. cbn [sizeof int_elem] in Hspan.
  unfold bind at 1. rewrite pop_loop_all by lia.
  unfold ret.
  assert (Hsize : int_cast (BasicVector.size (BasicVector.set_end (begin v1) v1)) = 0).
  { unfold BasicVector.size. cbn [begin end_ BasicVector.set_end].
    rewrite Z.sub_diag. reflexivity. }
  rewrite Hsize.
  rewrite Z2Nat.id in Hr by lia. change (Z.of_nat 0) with 0 in Hr.
  assert (Hres : r = sum + n * (n - 1) / 2) by lia.
  assert (Hpos : 0 <= n * (n - 1)) by nia.
  rewrite int_cast_small by lia.
  f_equal. f_equal. f_equal.
  - lia.
  - destruct v as [e b], v1 as [e1 b1]. cbn in *. unfold BasicVector.set_end. cbn.
    congruence.
Qed.

Lemma push_access_pop_sum_witness :
  exists s',
    push_access_pop 50 7 (BasicVector.ctor (2 ^ 40)) (boot 0) =
    (Ok (7 + 50 * (50 - 1) / 2, BasicVector.ctor (2 ^ 40)), s').
Proof.
  apply (push_access_pop_sum 50 7 (BasicVector.ctor (2 ^ 40)) (boot 0)).
  - reflexivity.
  - lia.
  - lia.
  - vm_compute. reflexivity.
Defined.
